(** * GLSP client: type hints, command stack and correlated request helpers

    A shallow embedding of
    - [packages/client/src/features/hints/type-hints.ts]
      ([getTypeHint], [TypeHintProvider], [ApplyTypeHintsCommand]),
    - [packages/client/src/base/command-stack.ts] ([GLSPCommandStack]),
    - [packages/client/src/features/label-edit/edit-label-validator.ts] and
      the context-menu item provider,
    - [packages/client/src/features/validation/issue-marker.ts],
    - [packages/protocol/src/action-protocol/client-notification.ts],
    together with the properties stated for them. *)

From Stdlib Require Import String Ascii List Bool Arith Lia.
From stdpp Require Import base decidable option list strings gmap.

Local Open Scope string_scope.
Local Open Scope list_scope.

(** ** JavaScript strings: [split(':')] and [join(':')] *)

Module JsString.

Definition colon : ascii := ":"%char.

(** [s.split(':')]: the segments between the colons.  The result is never
    empty: the empty string splits into one empty segment. *)
Fixpoint split (s : string) : list string :=
  match s with
  | EmptyString => [EmptyString]
  | String c rest =>
      if Ascii.eqb c colon then EmptyString :: split rest
      else match split rest with
           | [] => [String c EmptyString]
           | seg :: segs => String c seg :: segs
           end
  end.

(** [segs.join(':')]: the empty array joins to the empty string. *)
Fixpoint join (segs : list string) : string :=
  match segs with
  | [] => EmptyString
  | [seg] => seg
  | seg :: rest => seg ++ String colon (join rest)
  end.

End JsString.

(** ** JavaScript [Map<string, V>]

    A [Map] keeps its entries in insertion order; [set] on a key that is
    present replaces the value in place, [values()] lists the values in
    insertion order. *)

Module JsMap.

Definition t (V : Type) : Type := list (string * V).

Definition empty {V} : t V := [].

Fixpoint get {V} (m : t V) (k : string) : option V :=
  match m with
  | [] => None
  | (k', v) :: rest => if String.eqb k' k then Some v else get rest k
  end.

Fixpoint set {V} (m : t V) (k : string) (v : V) : t V :=
  match m with
  | [] => [(k, v)]
  | (k', v') :: rest =>
      if String.eqb k' k then (k, v) :: rest else (k', v') :: set rest k v
  end.

Definition values {V} (m : t V) : list V := map snd m.

End JsMap.

(** ** Type hints (protocol data) *)

Record ShapeTypeHint := {
  shape_elementTypeId : string;
  shape_deletable : bool;
  shape_repositionable : bool;
  resizable : bool;
  reparentable : bool;
  containableElementTypeIds : option (list string)
}.

Record EdgeTypeHint := {
  edge_elementTypeId : string;
  edge_deletable : bool;
  edge_repositionable : bool;
  routable : bool;
  sourceElementTypeIds : list string;
  targetElementTypeIds : list string
}.

(** ** Model elements and their feature sets *)

(** Feature tokens are JavaScript symbols: opaque and pairwise distinct. *)
Definition symbol : Type := positive.

Definition deletableFeature : symbol := 1%positive.
Definition editFeature : symbol := 2%positive.
Definition moveFeature : symbol := 3%positive.
Definition connectableFeature : symbol := 4%positive.
Definition resizeFeature : symbol := 5%positive.
Definition reconnectFeature : symbol := 6%positive.
Definition containerFeature : symbol := 7%positive.
Definition reparentFeature : symbol := 8%positive.

(** The [features] field of an element: absent, a [FeatureSet] that only
    answers [has] (not a [Set]), or a mutable [Set<symbol>]. *)
Inductive FeatureSetField : Type :=
| FeaturesUndefined
| FeaturesReadonly (members : list symbol)
| FeaturesSet (s : gset symbol).

(** The classes the command tests with [instanceof]. *)
Inductive ElementClass : Type :=
| SShapeElementClass
| SModelRootClass
| SEdgeClass
| OtherElementClass.

Inductive Role : Type := source | target.

(** What a predicate closure sees of its candidate. *)
Record ElementRef := { ref_id : string; ref_type : string }.

Inductive TypeInput : Type :=
| InputTypeId (typeId : string)
| InputElement (element : ElementRef).

Record SModelElement := {
  id : string;
  type : string;
  class : ElementClass;
  features : FeatureSetField;
  isContainableElement : option (TypeInput -> bool);
  canConnect : option (ElementRef -> Role -> bool)
}.

Definition ref_of (element : SModelElement) : ElementRef :=
  {| ref_id := id element; ref_type := type element |}.

#[local] Set Warnings "-register-all".

(** The model tree below a root; [root.index.all()] lists every node. *)
Inductive SModelTree : Type :=
| TreeNode (element : SModelElement) (children : list SModelTree).

Fixpoint index_all (tree : SModelTree) : list SModelElement :=
  match tree with
  | TreeNode element children => element :: flat_map index_all children
  end.

(** In-place mutation of every indexed element, the tree shape untouched. *)
Fixpoint forEach_element (f : SModelElement -> SModelElement)
  (tree : SModelTree) : SModelTree :=
  match tree with
  | TreeNode element children =>
      TreeNode (f element) (map (forEach_element f) children)
  end.

(** ** Helpers of [utils/smodel-util] *)

(** Modelled from the spec: [getElementTypeId] of [utils/smodel-util] is not
    part of the sources at hand; an element stands for its hierarchical
    [type] identifier, a string for itself. *)
Definition getElementTypeId (input : TypeInput) : string :=
  match input with
  | InputTypeId typeId => typeId
  | InputElement element => ref_type element
  end.

(** The claim's wording: the prefix of [t] made of its first [n] colon
    segments. *)
Definition segment_prefix (t : string) (n : nat) : string :=
  JsString.join (take n (JsString.split t)).

Definition segment_count (t : string) : nat := length (JsString.split t).


(** The type id and every ancestor of it: the id with trailing colon
    segments stripped one at a time, down to the empty string. *)
Definition type_and_ancestors (t : string) : list string :=
  t :: map (segment_prefix t) (rev (seq 0 (segment_count t))).

(** Modelled from the spec: [hasCompatibleType] of [utils/smodel-util] is
    not part of the sources at hand; the spec defines compatibility as an
    exact or ancestor match per the same hierarchical rule as the hint
    lookup. *)
Definition hasCompatibleType (elementTypeId candidate : string) : bool :=
  existsb (String.eqb candidate) (type_and_ancestors elementTypeId).

(** ** Hint lookup with subtype fallback *)

(** The [while] loop of [getTypeHint].  The array [subtypes] is kept
    reversed, so that [subtypes.pop()] drops the head: the loop stops when a
    hint was found or when the array is empty. *)
Fixpoint getTypeHint_loop {T} (hints : JsMap.t T) (rev_subtypes : list string)
  : option T :=
  match rev_subtypes with
  | [] => None
  | _ :: popped =>
      match JsMap.get hints (JsString.join (rev popped)) with
      | Some hint => Some hint
      | None => getTypeHint_loop hints popped
      end
  end.

Definition getTypeHint {T} (input : TypeInput) (hints : JsMap.t T) : option T :=
  let type := getElementTypeId input in
  match JsMap.get hints type with
  | Some hint => Some hint
  | None => getTypeHint_loop hints (rev (JsString.split type))
  end.

(** ** ApplyTypeHintsCommand *)

Definition addOrRemove (features : gset symbol) (feature : symbol) (add : bool)
  : gset symbol :=
  if add && negb (bool_decide (feature ∈ features)) then features ∪ {[feature]}
  else if negb add && bool_decide (feature ∈ features) then features ∖ {[feature]}
  else features.

Definition isModifiableFeatureSet (featureSet : FeatureSetField) : bool :=
  match featureSet with
  | FeaturesSet _ => true
  | _ => false
  end.

Definition includes (l : list string) (x : string) : bool :=
  existsb (String.eqb x) l.

Definition createConnectable (validSourceEdges validTargetEdges : list string)
  : ElementRef -> Role -> bool :=
  fun routable role =>
    match role with
    | source => includes validSourceEdges (ref_type routable)
    | target => includes validTargetEdges (ref_type routable)
    end.

Definition createContainable (hint : ShapeTypeHint) : TypeInput -> bool :=
  fun element =>
    match containableElementTypeIds hint with
    | Some ids => includes ids (getElementTypeId element)
    | None => false
    end.

(** ** TypeHintProvider *)

Record TypeHintProvider := {
  shapeHints : JsMap.t ShapeTypeHint;
  edgeHints : JsMap.t EdgeTypeHint
}.

Record SetTypeHintsAction := {
  action_shapeHints : list ShapeTypeHint;
  action_edgeHints : list EdgeTypeHint
}.

Definition initialProvider : TypeHintProvider :=
  {| shapeHints := JsMap.empty; edgeHints := JsMap.empty |}.

(** [handle] on a [SetTypeHintsAction]: every hint is stored under its own
    [elementTypeId], a later hint for the same id replacing the earlier. *)
Definition handle (provider : TypeHintProvider) (action : SetTypeHintsAction)
  : TypeHintProvider :=
  {| shapeHints :=
       fold_left (fun m hint => JsMap.set m (shape_elementTypeId hint) hint)
         (action_shapeHints action) (shapeHints provider);
     edgeHints :=
       fold_left (fun m hint => JsMap.set m (edge_elementTypeId hint) hint)
         (action_edgeHints action) (edgeHints provider) |}.

Section CompatibleType.

(** The compatibility test the provider is linked against. *)
Variable compatible : string -> string -> bool.

Definition getValidEdgeElementTypes_with (provider : TypeHintProvider)
  (input : TypeInput) (role : Role) : list string :=
  let elementTypeId := getElementTypeId input in
  match role with
  | source =>
      map edge_elementTypeId
        (List.filter (fun hint =>
             existsb (fun sourceElementTypeId =>
                        compatible elementTypeId sourceElementTypeId)
               (sourceElementTypeIds hint))
           (JsMap.values (edgeHints provider)))
  | target =>
      map edge_elementTypeId
        (List.filter (fun hint =>
             existsb (fun targetElementTypeId =>
                        compatible elementTypeId targetElementTypeId)
               (targetElementTypeIds hint))
           (JsMap.values (edgeHints provider)))
  end.

End CompatibleType.

Definition getValidEdgeElementTypes : TypeHintProvider -> TypeInput -> Role -> list string :=
  getValidEdgeElementTypes_with hasCompatibleType.

Definition getShapeTypeHint (provider : TypeHintProvider) (input : TypeInput)
  : option ShapeTypeHint :=
  getTypeHint input (shapeHints provider).

Definition getEdgeTypeHint (provider : TypeHintProvider) (input : TypeInput)
  : option EdgeTypeHint :=
  getTypeHint input (edgeHints provider).

Definition with_features (element : SModelElement) (s : gset symbol) : SModelElement :=
  {| id := id element; type := type element; class := class element;
     features := FeaturesSet s;
     isContainableElement := isContainableElement element;
     canConnect := canConnect element |}.

(** The guard [hint && isModifiableFeatureSet(element.features)] is the
    first branch of the match: a hint was found and the field holds a
    [Set], which the branch then mutates. *)
Definition applyEdgeTypeHint (provider : TypeHintProvider) (element : SModelElement)
  : SModelElement :=
  match getEdgeTypeHint provider (InputElement (ref_of element)), features element with
  | Some hint, FeaturesSet s0 =>
      let s1 := addOrRemove s0 deletableFeature (edge_deletable hint) in
      let s2 := addOrRemove s1 editFeature (routable hint) in
      let s3 := addOrRemove s2 reconnectFeature (edge_repositionable hint) in
      with_features element s3
  | _, _ => element
  end.

Definition applyShapeTypeHint (provider : TypeHintProvider) (element : SModelElement)
  : SModelElement :=
  match getShapeTypeHint provider (InputElement (ref_of element)), features element with
  | Some hint, FeaturesSet s0 =>
      let s1 := addOrRemove s0 deletableFeature (shape_deletable hint) in
      let s2 := addOrRemove s1 moveFeature (shape_repositionable hint) in
      let s3 := addOrRemove s2 resizeFeature (resizable hint) in
      let s4 := addOrRemove s3 reparentFeature (reparentable hint) in
      let s5 := addOrRemove s4 containerFeature true in
      let containable := createContainable hint in
      let s6 := addOrRemove s5 connectableFeature true in
      let validSourceEdges :=
        getValidEdgeElementTypes provider (InputElement (ref_of element)) source in
      let validTargetEdges :=
        getValidEdgeElementTypes provider (InputElement (ref_of element)) target in
      let connectable := createConnectable validSourceEdges validTargetEdges in
      {| id := id element; type := type element; class := class element;
         features := FeaturesSet s6;
         isContainableElement := Some containable;
         canConnect := Some connectable |}
  | _, _ => element
  end.

(** The callback of [forEach] in [execute]. *)
Definition applyTypeHints (provider : TypeHintProvider) (element : SModelElement)
  : SModelElement :=
  match class element with
  | SShapeElementClass | SModelRootClass => applyShapeTypeHint provider element
  | SEdgeClass => applyEdgeTypeHint provider element
  | OtherElementClass => element
  end.

Definition execute (provider : TypeHintProvider) (root : SModelTree) : SModelTree :=
  forEach_element (applyTypeHints provider) root.

(** Calling the predicates an element carries; [None] when the element has
    no such method. *)
Definition call_isContainableElement (element : SModelElement)
  (candidate : TypeInput) : option bool :=
  match isContainableElement element with
  | Some predicate => Some (predicate candidate)
  | None => None
  end.

Definition call_canConnect (element : SModelElement) (routable : ElementRef)
  (role : Role) : option bool :=
  match canConnect element with
  | Some predicate => Some (predicate routable role)
  | None => None
  end.

(** Whether the registry the command consults for this element holds a hint
    under [key]: the shape hints for shapes and roots, the edge hints for
    edges. *)
Definition hint_registered (provider : TypeHintProvider) (element : SModelElement)
  (key : string) : bool :=
  match class element with
  | SShapeElementClass | SModelRootClass =>
      match JsMap.get (shapeHints provider) key with Some _ => true | None => false end
  | SEdgeClass =>
      match JsMap.get (edgeHints provider) key with Some _ => true | None => false end
  | OtherElementClass => false
  end.

(** The feature tokens of an element, when it has a feature set. *)
Definition has_feature (element : SModelElement) (feature : symbol) : bool :=
  match features element with
  | FeaturesUndefined => false
  | FeaturesReadonly members => bool_decide (feature ∈ members)
  | FeaturesSet s => bool_decide (feature ∈ s)
  end.

(** ** Completions and JavaScript values *)

(** How a call ends: with a value, or by throwing. *)
Inductive Completion (A : Type) : Type :=
| Normal (value : A)
| Throws (error : string).

Arguments Normal {A} value.
Arguments Throws {A} error.

(** The values an action received from the wire can be made of. *)
Inductive JsValue : Type :=
| JsUndefined
| JsNull
| JsBoolean (b : bool)
| JsNumber (n : Z)
| JsText (s : string)
| JsArray (items : list JsValue)
| JsObject (fields : list (string * JsValue)).

Fixpoint lookup_field (fields : list (string * JsValue)) (name : string)
  : JsValue :=
  match fields with
  | [] => JsUndefined
  | (k, v) :: rest => if String.eqb k name then v else lookup_field rest name
  end.

(** [value.name]: reading a property of [undefined] or [null] throws a
    [TypeError]; a property that is missing reads as [undefined]. *)
Definition get_property (value : JsValue) (name : string) : Completion JsValue :=
  match value with
  | JsUndefined | JsNull => Throws "TypeError"
  | JsObject fields => Normal (lookup_field fields name)
  | _ => Normal JsUndefined
  end.

(** ** Action type guards of the protocol package *)

Module Action.

(** Modelled from the spec: the guards of the protocol package for these
    two actions are not part of the sources at hand; a guard checks the
    [kind] discriminator, then the presence and type of the required
    fields, and answers [false] on anything else. *)
Definition hasKind (object : JsValue) (kind : string) : bool :=
  match object with
  | JsObject fields =>
      match lookup_field fields "kind" with
      | JsText k => String.eqb k kind
      | _ => false
      end
  | _ => false
  end.

(** Modelled from the spec: the check that a required field is present and
    holds an object. *)
Definition hasObjectProp (object : JsValue) (name : string) : bool :=
  match object with
  | JsObject fields =>
      match lookup_field fields name with
      | JsObject _ | JsArray _ => true
      | _ => false
      end
  | _ => false
  end.

(** Modelled from the spec: the check that a required field is present and
    holds an array. *)
Definition hasArrayProp (object : JsValue) (name : string) : bool :=
  match object with
  | JsObject fields =>
      match lookup_field fields name with
      | JsArray _ => true
      | _ => false
      end
  | _ => false
  end.

End Action.

Module SetEditValidationResultAction.

Definition KIND : string := "setEditValidationResult".

(** Modelled from the spec: the guard of the [setEditValidationResult]
    action, whose required field is [status]. *)
Definition is_ (object : JsValue) : bool :=
  Action.hasKind object KIND && Action.hasObjectProp object "status".

End SetEditValidationResultAction.

Module SetContextActions.

Definition KIND : string := "setContextActions".

(** Modelled from the spec: the guard of the [setContextActions] action,
    whose required field is the array [actions]. *)
Definition is_ (object : JsValue) : bool :=
  Action.hasKind object KIND && Action.hasArrayProp object "actions".

End SetContextActions.

(** ** Label-edit validation and context-menu items *)

Inductive Severity : Type := ok | warning | error.

(** [message] is [None] when the result object has no such property. *)
Record EditLabelValidationResult := {
  message : option JsValue;
  severity : Severity
}.

Section ValidationStatus.

(** [ValidationStatus.isError] and [ValidationStatus.isWarning] of the
    protocol package. *)
Variable isError isWarning : JsValue -> bool.

Definition toEditLabelValidationResult (status : JsValue)
  : Completion EditLabelValidationResult :=
  match get_property status "message" with
  | Throws e => Throws e
  | Normal message =>
      let severity :=
        if isError status then error
        else if isWarning status then warning
        else ok in
      Normal {| message := Some message; severity := severity |}
  end.

Definition getValidationResultFromResponse (action : JsValue)
  : Completion EditLabelValidationResult :=
  if SetEditValidationResultAction.is_ action then
    match get_property action "status" with
    | Throws e => Throws e
    | Normal status => toEditLabelValidationResult status
    end
  else Normal {| message := None; severity := ok |}.

End ValidationStatus.

Definition getContextActionsFromResponse (action : JsValue) : Completion JsValue :=
  if SetContextActions.is_ action then get_property action "actions"
  else Normal (JsArray []).

(** ** GLSPCommandStack *)

Module GLSPCommandStack.

(** The command classes [execute] tells apart with [instanceof]. *)
Inductive CommandClass : Type :=
| Command
| SetModelCommand
| UpdateModelCommand
| Subclass (name : string) (parent : CommandClass).

#[global] Instance CommandClass_eq_dec : EqDecision CommandClass.
Proof. solve_decision. Defined.

(** [command instanceof target]: the class or one of its ancestors. *)
Fixpoint instanceof (class target : CommandClass) : bool :=
  if decide (class = target) then true
  else match class with
       | Subclass _ parent => instanceof parent target
       | _ => false
       end.

Record ICommand := {
  command_class : CommandClass;
  command_kind : string
}.

(** The stack, with the logger and the listeners' calls kept as traces. *)
Record t := {
  currentModel : SModelTree;
  modelRootListeners : list string;
  callbacks : list string;
  warnings : list string;
  fired : list SModelTree;
  notified : list (string * SModelTree)
}.

Definition undo_warning : string :=
  "GLSPCommandStack.undo() was called. This should never happen as the GLSP server is responsible for handling undo requests".

Definition redo_warning : string :=
  "GLSPCommandStack.redo() was called. This should never happen as the GLSP server is responsible for handling redo requests".

Definition logger_warn (text : string) (stack : t) : t :=
  {| currentModel := currentModel stack;
     modelRootListeners := modelRootListeners stack;
     callbacks := callbacks stack;
     warnings := warnings stack ++ [text];
     fired := fired stack;
     notified := notified stack |}.

(** [initialize]: every injected listener subscribes to the emitter. *)
Definition initialize (stack : t) : t :=
  {| currentModel := currentModel stack;
     modelRootListeners := modelRootListeners stack;
     callbacks := callbacks stack ++ modelRootListeners stack;
     warnings := warnings stack;
     fired := fired stack;
     notified := notified stack |}.

(** [dispose]: the emitter drops its subscriptions. *)
Definition dispose (stack : t) : t :=
  {| currentModel := currentModel stack;
     modelRootListeners := modelRootListeners stack;
     callbacks := [];
     warnings := warnings stack;
     fired := fired stack;
     notified := notified stack |}.

Definition undo (stack : t) : Completion SModelTree * t :=
  let stack' := logger_warn undo_warning stack in
  (Normal (currentModel stack'), stack').

Definition redo (stack : t) : Completion SModelTree * t :=
  let stack' := logger_warn redo_warning stack in
  (Normal (currentModel stack'), stack').

(** [onModelRootChangedEmitter.fire(root)]: the subscribers are called in
    subscription order. *)
Definition notifyListeners (root : SModelTree) (stack : t) : t :=
  {| currentModel := currentModel stack;
     modelRootListeners := modelRootListeners stack;
     callbacks := callbacks stack;
     warnings := warnings stack;
     fired := fired stack ++ [root];
     notified := notified stack ++ map (fun listener => (listener, root)) (callbacks stack) |}.

Section Inherited.

(** The inherited [CommandStack.execute]: the root its promise is
    fulfilled with, from the command and the current model.  [execute] is
    followed up to the point where that promise is fulfilled and the
    callback given to [then] has run. *)
Variable super_execute : ICommand -> SModelTree -> SModelTree.

Definition execute (command : ICommand) (stack : t) : SModelTree * t :=
  let result := super_execute command (currentModel stack) in
  let stack1 :=
    {| currentModel := result;
       modelRootListeners := modelRootListeners stack;
       callbacks := callbacks stack;
       warnings := warnings stack;
       fired := fired stack;
       notified := notified stack |} in
  if instanceof (command_class command) SetModelCommand
     || instanceof (command_class command) UpdateModelCommand
  then (result, notifyListeners result stack1)
  else (result, stack1).

End Inherited.

End GLSPCommandStack.

(** ** Action dispatcher: correlated requests *)

Module GLSPActionDispatcher.

Record PendingRequest := {
  request_id : nat;
  matchPredicate : JsValue -> bool
}.

(** Modelled from the spec: the state of the dispatcher, that is the actions
    handed to the handlers so far, the requests still waiting, and the
    futures already resolved. *)
Record t := {
  handled : list JsValue;
  pending : list PendingRequest;
  resolved : list (nat * JsValue);
  next_id : nat
}.

Definition initial : t :=
  {| handled := []; pending := []; resolved := []; next_id := 0 |}.

(** Modelled from the spec: the dispatcher ([base/action-dispatcher]) is not
    part of the sources at hand.  [dispatch] delivers the action to the
    handlers; every waiting request whose predicate holds for it is removed
    and resolved with it. *)
Definition dispatch (action : JsValue) (d : t) : t :=
  {| handled := handled d ++ [action];
     pending := List.filter (fun p => negb (matchPredicate p action)) (pending d);
     resolved :=
       resolved d ++
       map (fun p => (request_id p, action))
         (List.filter (fun p => matchPredicate p action) (pending d));
     next_id := next_id d |}.

(** Modelled from the spec: [requestUntil] dispatches the request action
    and returns a future for the first action dispatched afterwards for
    which the predicate holds; the future is named by a fresh id. *)
Definition requestUntil (requestAction : JsValue) (predicate : JsValue -> bool)
  (d : t) : nat * t :=
  let d1 := dispatch requestAction d in
  (next_id d1,
   {| handled := handled d1;
      pending := pending d1 ++ [{| request_id := next_id d1; matchPredicate := predicate |}];
      resolved := resolved d1;
      next_id := S (next_id d1) |}).

(** Every value a future was resolved with, in order. *)
Definition resolutions (d : t) (future : nat) : list JsValue :=
  map snd (List.filter (fun r => Nat.eqb (fst r) future) (resolved d)).

(** What the clients of the dispatcher do. *)
Inductive Call : Type :=
| CallDispatch (action : JsValue)
| CallRequestUntil (requestAction : JsValue) (predicate : JsValue -> bool).

Definition dispatched (call : Call) : JsValue :=
  match call with
  | CallDispatch action => action
  | CallRequestUntil requestAction _ => requestAction
  end.

Definition step (d : t) (call : Call) : t :=
  match call with
  | CallDispatch action => dispatch action d
  | CallRequestUntil requestAction predicate =>
      snd (requestUntil requestAction predicate d)
  end.

Definition run (calls : list Call) (d : t) : t := fold_left step calls d.

(** The waiting entries of one future. *)
Definition pending_of (d : t) (future : nat) : list PendingRequest :=
  List.filter (fun p => Nat.eqb (request_id p) future) (pending d).

(** Every id handed out so far is below [next_id]. *)
Definition ids_below_next (d : t) : Prop :=
  Forall (fun p => request_id p < next_id d) (pending d) /\
  Forall (fun r => fst r < next_id d) (resolved d).

(** A future is waiting: registered once, with its predicate, and not yet
    resolved. *)
Definition waiting (d : t) (future : nat) (predicate : JsValue -> bool) : Prop :=
  resolutions d future = [] /\
  pending_of d future = [{| request_id := future; matchPredicate := predicate |}] /\
  future < next_id d.

(** A future is settled with [action]: resolved once and no longer
    registered. *)
Definition settled (d : t) (future : nat) (action : JsValue) : Prop :=
  resolutions d future = [action] /\
  pending_of d future = [] /\
  future < next_id d.

End GLSPActionDispatcher.

(** ** Commands executed one after the other *)

Section CommandSequences.

Variable super_execute : GLSPCommandStack.ICommand -> SModelTree -> SModelTree.

(** The test of [execute]: the command replaces the whole model. *)
Definition replaces_model (command : GLSPCommandStack.ICommand) : bool :=
  GLSPCommandStack.instanceof (GLSPCommandStack.command_class command)
    GLSPCommandStack.SetModelCommand
  || GLSPCommandStack.instanceof (GLSPCommandStack.command_class command)
       GLSPCommandStack.UpdateModelCommand.

(** [execute] called for each command in turn: the roots returned, and the
    stack afterwards. *)
Fixpoint execute_each (commands : list GLSPCommandStack.ICommand)
  (stack : GLSPCommandStack.t) : list SModelTree * GLSPCommandStack.t :=
  match commands with
  | [] => ([], stack)
  | command :: rest =>
      let (result, stack1) := GLSPCommandStack.execute super_execute command stack in
      let (results, stack') := execute_each rest stack1 in
      (result :: results, stack')
  end.

End CommandSequences.

(** ** The balloon decoration of the label editor *)

Module Dom.

(** An element as the decorator uses it: its attributes by name, and its
    class list, an ordered set of tokens. *)
Record HTMLElement := {
  attributes : gmap string string;
  classList : list string
}.

Record HTMLInputElement := {
  parentElement : option HTMLElement
}.


Definition removeAttribute (name : string) (element : HTMLElement) : HTMLElement :=
  {| attributes := delete name (attributes element);
     classList := classList element |}.


(** [classList.remove(...tokens)]. *)
Definition classList_remove (tokens : list string) (element : HTMLElement) : HTMLElement :=
  {| attributes := attributes element;
     classList := List.filter (fun token => negb (includes tokens token))
                    (classList element) |}.

End Dom.


Section BalloonLabelValidationDecorator.

(** The conversion [setAttribute] applies to the value it is given. *)
Variable ToString : JsValue -> string.


End BalloonLabelValidationDecorator.

Definition dispose (input : Dom.HTMLInputElement) : Dom.HTMLInputElement :=
  match Dom.parentElement input with
  | Some containerElement =>
      {| Dom.parentElement :=
           Some (Dom.classList_remove
                   ["validation-ok"; "validation-warning"; "validation-error"]
                   (Dom.removeAttribute "data-balloon-visible"
                      (Dom.removeAttribute "data-balloon-pos"
                         (Dom.removeAttribute "data-balloon" containerElement)))) |}
  | None => input
  end.

(** ** Issue markers *)

Module IssueMarker.

Inductive SIssueSeverity : Type := error | warning | info.

(** An issue; [severity] is [None] while nothing has assigned it. *)
Record SIssue := {
  message : string;
  severity : option SIssueSeverity
}.

(** A marker as sent by the server. *)
Record Marker := {
  label : string;
  description : string;
  elementId : string;
  kind : string
}.

Record GIssueMarker := {
  features : gset symbol;
  projectionCssClasses : option (list string);
  projectedBounds : option JsValue;
  issues : list SIssue;
  type : string
}.

(** A child of a parent element: an instance of [GIssueMarker], or anything
    else. *)
Inductive Child : Type :=
| IssueMarkerChild (marker : GIssueMarker)
| OtherChild (id : string).

(** A parent element; [bounds] is [Some] exactly for a bounds-aware one. *)
Record SParentElement := {
  children : list Child;
  bounds : option JsValue;
  parentToLocal : JsValue -> JsValue
}.

(** The [for] loop of [getSeverity], from [currentSeverity] on. *)
Fixpoint getSeverity_loop (severities : list (option SIssueSeverity))
  (currentSeverity : SIssueSeverity) : SIssueSeverity :=
  match severities with
  | [] => currentSeverity
  | Some error :: _ => error
  | Some warning :: rest =>
      match currentSeverity with
      | info => getSeverity_loop rest warning
      | _ => getSeverity_loop rest currentSeverity
      end
  | _ :: rest => getSeverity_loop rest currentSeverity
  end.

Definition getSeverity (marker : GIssueMarker) : SIssueSeverity :=
  getSeverity_loop (map severity (issues marker)) info.

(** A severity is the string it is written as. *)
Definition severity_text (s : SIssueSeverity) : string :=
  match s with
  | error => "error"
  | warning => "warning"
  | info => "info"
  end.

Definition computeProjectionCssClasses (marker : GIssueMarker) : GIssueMarker :=
  let severityCss := getSeverity marker in
  {| features := features marker;
     projectionCssClasses :=
       Some ["sprotty-issue"; ("sprotty-" ++ severity_text severityCss)%string];
     projectedBounds := projectedBounds marker;
     issues := issues marker;
     type := type marker |}.

(** The loop of [getSIssueMarker]: every child that is a [GIssueMarker]
    replaces the one found before. *)
Definition getSIssueMarker (modelElement : SParentElement) : option GIssueMarker :=
  fold_left (fun issueMarker child =>
               match child with
               | IssueMarkerChild marker => Some marker
               | OtherChild _ => issueMarker
               end)
    (children modelElement) None.

Section Construction.

(** [SDecoration.DEFAULT_FEATURES]. *)
Variable DEFAULT_FEATURES : list symbol.

(** [new GIssueMarker()]. *)
Definition new_GIssueMarker : GIssueMarker :=
  {| features := list_to_set DEFAULT_FEATURES;
     projectionCssClasses := None;
     projectedBounds := None;
     issues := [];
     type := "marker" |}.

(** The marker returned, and the parent element afterwards. *)
Definition getOrCreateSIssueMarker (modelElement : SParentElement)
  : GIssueMarker * SParentElement :=
  match getSIssueMarker modelElement with
  | Some issueMarker => (issueMarker, modelElement)
  | None =>
      let created := new_GIssueMarker in
      let issueMarker :=
        match bounds modelElement with
        | Some b =>
            {| features := features created;
               projectionCssClasses := projectionCssClasses created;
               projectedBounds := Some (parentToLocal modelElement b);
               issues := issues created;
               type := type created |}
        | None => created
        end in
      (issueMarker,
       {| children := children modelElement ++ [IssueMarkerChild issueMarker];
          bounds := bounds modelElement;
          parentToLocal := parentToLocal modelElement |})
  end.

End Construction.

Section MarkerKinds.

(** [MarkerKind.ERROR], [MarkerKind.INFO] and [MarkerKind.WARNING]. *)
Variables ERROR INFO WARNING : string.

Definition createSIssue (marker : Marker) : SIssue :=
  {| message := description marker;
     severity :=
       if String.eqb (kind marker) ERROR then Some error
       else if String.eqb (kind marker) INFO then Some info
       else if String.eqb (kind marker) WARNING then Some warning
       else None |}.

End MarkerKinds.

(** The tests of the loop of [getSeverity]. *)
Definition is_error (s : option SIssueSeverity) : bool :=
  match s with Some error => true | _ => false end.

Definition is_warning (s : option SIssueSeverity) : bool :=
  match s with Some warning => true | _ => false end.

End IssueMarker.

(** ** Notifications of the protocol *)

(** Modelled from the spec: [hasStringProp] of [utils/type-util] is not part
    of the sources at hand; as a guard's check of a required field it
    answers whether the field is present and holds a string. *)
Definition hasStringProp (object : JsValue) (name : string) : bool :=
  match object with
  | JsObject fields =>
      match lookup_field fields name with
      | JsText _ => true
      | _ => false
      end
  | _ => false
  end.

(** An object literal [{ ... }]: the properties in the order written, a
    later property of the same name replacing the earlier value in place;
    the properties of a spread [...options] are written where it stands. *)
Definition object_literal (properties : list (string * JsValue)) : JsValue :=
  JsObject (fold_left (fun fields property =>
                         JsMap.set fields (fst property) (snd property))
              properties []).

(** An optional property of an options object, present or not. *)
Definition own_property (name : string) (value : option JsValue)
  : list (string * JsValue) :=
  match value with
  | Some v => [(name, v)]
  | None => []
  end.

Module ServerStatusAction.

Definition KIND : string := "serverStatus".

Definition is_ (object : JsValue) : bool :=
  Action.hasKind object KIND && hasStringProp object "severity"
  && hasStringProp object "message".

(** [{ severity?: ServerSeverity; timeout?: number }]: [None] for a
    property the caller left out. *)
Record Options := {
  severity : option JsValue;
  timeout : option JsValue
}.

Definition create (message : string) (options : Options) : JsValue :=
  object_literal
    ([("kind", JsText KIND); ("severity", JsText "INFO"); ("message", JsText message)]
     ++ own_property "severity" (severity options)
     ++ own_property "timeout" (timeout options)).

End ServerStatusAction.

Module ServerMessageAction.

Definition KIND : string := "serverMessage".

Definition is_ (object : JsValue) : bool :=
  Action.hasKind object KIND && hasStringProp object "message"
  && hasStringProp object "severity".

Record Options := {
  severity : option JsValue;
  details : option JsValue
}.

Definition create (message : string) (options : Options) : JsValue :=
  object_literal
    ([("kind", JsText KIND); ("message", JsText message); ("severity", JsText "INFO")]
     ++ own_property "severity" (severity options)
     ++ own_property "details" (details options)).

End ServerMessageAction.

Module StartProgressAction.

Definition KIND : string := "startProgress".

Definition is_ (object : JsValue) : bool :=
  Action.hasKind object KIND && hasStringProp object "progressId"
  && hasStringProp object "title".

Record Options := {
  progressId : string;
  title : string;
  message : option JsValue;
  percentage : option JsValue
}.

Definition create (options : Options) : JsValue :=
  object_literal
    ([("kind", JsText KIND)]
     ++ [("progressId", JsText (progressId options)); ("title", JsText (title options))]
     ++ own_property "message" (message options)
     ++ own_property "percentage" (percentage options)).

End StartProgressAction.

Module UpdateProgressAction.

Definition KIND : string := "updateProgress".

Definition is_ (object : JsValue) : bool :=
  Action.hasKind object KIND && hasStringProp object "progressId".

Record Options := {
  message : option JsValue;
  percentage : option JsValue
}.

Definition create (progressId : string) (options : Options) : JsValue :=
  object_literal
    ([("kind", JsText KIND); ("progressId", JsText progressId)]
     ++ own_property "message" (message options)
     ++ own_property "percentage" (percentage options)).

End UpdateProgressAction.

Module EndProgressAction.

Definition KIND : string := "endProgress".

Definition is_ (object : JsValue) : bool :=
  Action.hasKind object KIND && hasStringProp object "progressId".

(** [message] is written into the object even when it is [undefined]. *)
Definition create (progressId : string) (message : JsValue) : JsValue :=
  object_literal
    [("kind", JsText KIND); ("progressId", JsText progressId); ("message", message)].

End EndProgressAction.

(** The guards of the five notifications. *)
Definition notification_guards : list (JsValue -> bool) :=
  [ServerStatusAction.is_; ServerMessageAction.is_; StartProgressAction.is_;
   UpdateProgressAction.is_; EndProgressAction.is_].

(** ** Scenario data *)

(** The shape hint of the scenario: a deletable, repositionable node type
    that can be neither resized nor reparented and declares no containable
    types. *)
Definition node_hint : ShapeTypeHint :=
  {| shape_elementTypeId := "node";
     shape_deletable := true;
     shape_repositionable := true;
     resizable := false;
     reparentable := false;
     containableElementTypeIds := None |}.

(** The registry after the server sent exactly that hint. *)
Definition node_provider : TypeHintProvider :=
  handle initialProvider {| action_shapeHints := [node_hint]; action_edgeHints := [] |}.

Definition flow_hint : EdgeTypeHint :=
  {| edge_elementTypeId := "edge:flow";
     edge_deletable := true;
     edge_repositionable := false;
     routable := true;
     sourceElementTypeIds := ["node"];
     targetElementTypeIds := ["node:task"] |}.

Definition sample_provider : TypeHintProvider :=
  handle initialProvider {| action_shapeHints := [node_hint]; action_edgeHints := [flow_hint] |}.

Definition task_element : SModelElement :=
  {| id := "task1"; type := "node:task"; class := SShapeElementClass;
     features := FeaturesSet {[resizeFeature]};
     isContainableElement := None; canConnect := None |}.

(** A task whose feature set is missing. *)
Definition bare_task_element : SModelElement :=
  {| id := "task2"; type := "node:task"; class := SShapeElementClass;
     features := FeaturesUndefined;
     isContainableElement := None; canConnect := None |}.

(** A label of a type no hint covers. *)
Definition label_element : SModelElement :=
  {| id := "label1"; type := "label:heading"; class := SShapeElementClass;
     features := FeaturesSet {[moveFeature]};
     isContainableElement := None; canConnect := None |}.

Definition graph_element : SModelElement :=
  {| id := "graph"; type := "graph"; class := SModelRootClass;
     features := FeaturesSet ∅;
     isContainableElement := None; canConnect := None |}.

Definition sample_root : SModelTree :=
  TreeNode graph_element
    [TreeNode task_element [TreeNode label_element []];
     TreeNode bare_task_element []].

(** * Properties *)

(** ** The definitions at work *)

Example split_segments :
  JsString.split "node:task:user" = ["node"; "task"; "user"].
Proof. reflexivity. Qed.

Example split_empty_string : JsString.split "" = [""].
Proof. reflexivity. Qed.

Example split_trailing_colon : JsString.split "node:" = ["node"; ""].
Proof. reflexivity. Qed.

Example join_no_segment : JsString.join [] = "".
Proof. reflexivity. Qed.

Example map_set_replaces_in_place :
  JsMap.set (JsMap.set (JsMap.set JsMap.empty "a" 1) "b" 2) "a" 3
  = [("a", 3); ("b", 2)].
Proof. reflexivity. Qed.

Example lookup_falls_back_to_ancestor :
  getTypeHint (InputTypeId "node:task:user") (shapeHints node_provider)
  = Some node_hint.
Proof. reflexivity. Qed.

Example lookup_falls_back_to_empty_key :
  getTypeHint (InputTypeId "edge:flow") (JsMap.set JsMap.empty "" node_hint)
  = Some node_hint.
Proof. reflexivity. Qed.

Example lookup_misses : getShapeTypeHint node_provider (InputTypeId "edge") = None.
Proof. reflexivity. Qed.

Example valid_source_edges_of_task :
  getValidEdgeElementTypes sample_provider (InputElement (ref_of task_element)) source
  = ["edge:flow"].
Proof. reflexivity. Qed.

Example valid_target_edges_of_node :
  getValidEdgeElementTypes sample_provider (InputTypeId "node") target = [].
Proof. reflexivity. Qed.

Example task_after_one_pass :
  features (applyTypeHints node_provider task_element)
  = FeaturesSet {[deletableFeature; moveFeature; containerFeature; connectableFeature]}.
Proof. vm_compute. reflexivity. Qed.

Example subclass_is_instance :
  GLSPCommandStack.instanceof
    (GLSPCommandStack.Subclass "FeedbackAwareUpdateModelCommand"
       GLSPCommandStack.UpdateModelCommand)
    GLSPCommandStack.UpdateModelCommand = true.
Proof. reflexivity. Qed.

Example well_formed_context_actions :
  getContextActionsFromResponse
    (JsObject [("kind", JsText "setContextActions");
               ("actions", JsArray [JsText "delete"])])
  = Normal (JsArray [JsText "delete"]).
Proof. reflexivity. Qed.

Example unrelated_action_leaves_request_pending :
  let d1 := snd (GLSPActionDispatcher.requestUntil
                   (JsText "requestContextActions")
                   SetContextActions.is_
                   GLSPActionDispatcher.initial) in
  GLSPActionDispatcher.resolutions
    (GLSPActionDispatcher.dispatch (JsObject [("kind", JsText "serverStatus")]) d1) 0
  = [].
Proof. reflexivity. Qed.

(** ** Strings *)

Lemma split_not_nil (s : string) : JsString.split s <> [].
Proof.
  induction s as [|c rest IH]; simpl; [discriminate|].
  destruct (Ascii.eqb c JsString.colon); [discriminate|].
  destruct (JsString.split rest); discriminate.
Qed.

Lemma join_cons (seg : string) (rest : list string) :
  rest <> [] ->
  JsString.join (seg :: rest) = (seg ++ String JsString.colon (JsString.join rest))%string.
Proof. destruct rest; [congruence | reflexivity]. Qed.

Lemma join_split (s : string) : JsString.join (JsString.split s) = s.
Proof.
  induction s as [|c rest IH]; [reflexivity|].
  simpl. destruct (Ascii.eqb_spec c JsString.colon) as [->|Hc].
  - rewrite join_cons by apply split_not_nil. simpl. now rewrite IH.
  - pose proof (split_not_nil rest) as Hne.
    destruct (JsString.split rest) as [|seg segs]; [congruence|].
    destruct segs as [|seg' segs].
    + simpl in *. now rewrite IH.
    + rewrite <- IH. reflexivity.
Qed.

Lemma segment_prefix_all (t : string) : segment_prefix t (segment_count t) = t.
Proof.
  unfold segment_prefix, segment_count.
  rewrite firstn_all. apply join_split.
Qed.

Lemma segment_prefix_0 (t : string) : segment_prefix t 0 = "".
Proof. reflexivity. Qed.

(** ** The stripping loop *)

Lemma getTypeHint_loop_spec {T} (hints : JsMap.t T) (rev_subtypes : list string) :
  match getTypeHint_loop hints rev_subtypes with
  | Some hint =>
      exists n, n < length rev_subtypes /\
        JsMap.get hints (JsString.join (take n (rev rev_subtypes))) = Some hint /\
        forall m, n < m -> m < length rev_subtypes ->
          JsMap.get hints (JsString.join (take m (rev rev_subtypes))) = None
  | None =>
      forall n, n < length rev_subtypes ->
        JsMap.get hints (JsString.join (take n (rev rev_subtypes))) = None
  end.
Proof.
  induction rev_subtypes as [|last popped IH]; simpl.
  - intros n Hn. lia.
  - assert (Hshort : forall n, n <= length popped ->
              take n (rev popped ++ [last]) = take n (rev popped)).
    { intros n Hn. rewrite firstn_app.
      replace (n - length (rev popped)) with 0 by (rewrite length_rev; lia).
      simpl. apply app_nil_r. }
    assert (Hfull : take (length popped) (rev popped) = rev popped).
    { rewrite <- (length_rev popped). apply firstn_all. }
    destruct (JsMap.get hints (JsString.join (rev popped))) as [hint|] eqn:Hget.
    + exists (length popped). split; [lia|]. split.
      * rewrite Hshort by lia. now rewrite Hfull.
      * intros m Hlt Hle. lia.
    + destruct (getTypeHint_loop hints popped) as [hint|].
      * destruct IH as (n & Hn & Hhit & Hmiss).
        exists n. split; [lia|]. split.
        -- now rewrite Hshort by lia.
        -- intros m Hlt Hle. rewrite Hshort by lia.
           destruct (Nat.eq_dec m (length popped)) as [->|Hne].
           ++ now rewrite Hfull.
           ++ apply Hmiss; lia.
      * intros n Hn. rewrite Hshort by lia.
        destruct (Nat.eq_dec n (length popped)) as [->|Hne].
        -- now rewrite Hfull.
        -- apply IH. lia.
Qed.

(** ** The lookup as a whole *)

Lemma getTypeHint_resolves {T} (input : TypeInput) (R : JsMap.t T) :
  let t := getElementTypeId input in
  match getTypeHint input R with
  | Some hint =>
      exists n, n <= segment_count t /\
        JsMap.get R (segment_prefix t n) = Some hint /\
        forall m, n < m -> m <= segment_count t ->
          JsMap.get R (segment_prefix t m) = None
  | None =>
      forall n, n <= segment_count t -> JsMap.get R (segment_prefix t n) = None
  end.
Proof.
  intros t.
  unfold getTypeHint. fold t.
  destruct (JsMap.get R t) as [hint|] eqn:Hexact.
  - exists (segment_count t). split; [lia|]. split.
    + now rewrite segment_prefix_all.
    + intros m Hlt Hle. lia.
  - pose proof (getTypeHint_loop_spec R (rev (JsString.split t))) as Hloop.
    rewrite rev_involutive, length_rev in Hloop.
    fold (segment_count t) in Hloop.
    destruct (getTypeHint_loop R (rev (JsString.split t))) as [hint|].
    + destruct Hloop as (n & Hn & Hhit & Hmiss).
      exists n. split; [lia|]. split; [exact Hhit|].
      intros m Hlt Hle.
      destruct (Nat.eq_dec m (segment_count t)) as [->|Hne].
      * now rewrite segment_prefix_all.
      * apply Hmiss; lia.
    + intros n Hn.
      destruct (Nat.eq_dec n (segment_count t)) as [->|Hne].
      * now rewrite segment_prefix_all.
      * apply Hloop. lia.
Qed.

(** ** Feature sets *)

Lemma addOrRemove_true (s : gset symbol) (feature : symbol) :
  addOrRemove s feature true = s ∪ {[feature]}.
Proof.
  unfold addOrRemove. simpl. case_bool_decide; simpl; [|reflexivity].
  apply set_eq. set_solver.
Qed.

Lemma addOrRemove_false (s : gset symbol) (feature : symbol) :
  addOrRemove s feature false = s ∖ {[feature]}.
Proof.
  unfold addOrRemove. simpl. case_bool_decide; simpl; [reflexivity|].
  apply set_eq. set_solver.
Qed.

Lemma elem_of_addOrRemove (s : gset symbol) (feature x : symbol) (add : bool) :
  x ∈ addOrRemove s feature add <->
  (x = feature /\ add = true) \/ (x <> feature /\ x ∈ s).
Proof.
  destruct add.
  - rewrite addOrRemove_true. destruct (decide (x = feature)); set_solver.
  - rewrite addOrRemove_false. destruct (decide (x = feature)); set_solver.
Qed.

(** An operation that finds the token already as asked changes nothing. *)
Lemma addOrRemove_settled (s : gset symbol) (feature : symbol) (add : bool) :
  (feature ∈ s <-> add = true) -> addOrRemove s feature add = s.
Proof.
  intros Hs. unfold addOrRemove.
  destruct add; simpl; case_bool_decide; simpl; try reflexivity.
  - exfalso. tauto.
  - exfalso. assert (false = true) by tauto. discriminate.
Qed.

Lemma isModifiableFeatureSet_true (fs : FeatureSetField) :
  isModifiableFeatureSet fs = true <-> exists s, fs = FeaturesSet s.
Proof.
  destruct fs; simpl; split; try discriminate; eauto.
  - intros [s Hs]. discriminate.
  - intros [s Hs]. discriminate.
Qed.

#[local] Ltac settle :=
  apply addOrRemove_settled;
  rewrite ?elem_of_addOrRemove;
  unfold deletableFeature, editFeature, moveFeature, connectableFeature,
    resizeFeature, reconnectFeature, containerFeature, reparentFeature;
  intuition congruence.

Lemma edge_features_idempotent (hint : EdgeTypeHint) (s0 : gset symbol) :
  let s3 := addOrRemove (addOrRemove (addOrRemove s0 deletableFeature (edge_deletable hint))
                editFeature (routable hint)) reconnectFeature (edge_repositionable hint) in
  addOrRemove (addOrRemove (addOrRemove s3 deletableFeature (edge_deletable hint))
     editFeature (routable hint)) reconnectFeature (edge_repositionable hint) = s3.
Proof.
  intros s3.
  assert (H1 : addOrRemove s3 deletableFeature (edge_deletable hint) = s3).
  { subst s3. settle. }
  rewrite H1.
  assert (H2 : addOrRemove s3 editFeature (routable hint) = s3).
  { subst s3. settle. }
  rewrite H2. subst s3. settle.
Qed.

Lemma shape_features_idempotent (hint : ShapeTypeHint) (s0 : gset symbol) :
  let pass s :=
    addOrRemove (addOrRemove (addOrRemove (addOrRemove (addOrRemove (addOrRemove s
      deletableFeature (shape_deletable hint))
      moveFeature (shape_repositionable hint))
      resizeFeature (resizable hint))
      reparentFeature (reparentable hint))
      containerFeature true)
      connectableFeature true in
  pass (pass s0) = pass s0.
Proof.
  intros pass.
  assert (H1 : addOrRemove (pass s0) deletableFeature (shape_deletable hint) = pass s0).
  { subst pass. settle. }
  assert (H2 : addOrRemove (pass s0) moveFeature (shape_repositionable hint) = pass s0).
  { subst pass. settle. }
  assert (H3 : addOrRemove (pass s0) resizeFeature (resizable hint) = pass s0).
  { subst pass. settle. }
  assert (H4 : addOrRemove (pass s0) reparentFeature (reparentable hint) = pass s0).
  { subst pass. settle. }
  assert (H5 : addOrRemove (pass s0) containerFeature true = pass s0).
  { subst pass. settle. }
  assert (H6 : addOrRemove (pass s0) connectableFeature true = pass s0).
  { subst pass. settle. }
  unfold pass at 1. now rewrite H1, H2, H3, H4, H5, H6.
Qed.

(** ** One element *)

Lemma applyEdgeTypeHint_idempotent (provider : TypeHintProvider) (element : SModelElement) :
  applyEdgeTypeHint provider (applyEdgeTypeHint provider element)
  = applyEdgeTypeHint provider element.
Proof.
  unfold applyEdgeTypeHint.
  destruct (getEdgeTypeHint provider (InputElement (ref_of element))) as [hint|] eqn:Hhint.
  - destruct (features element) as [| |s0] eqn:Hfs.
    + now rewrite Hhint, Hfs.
    + now rewrite Hhint, Hfs.
    + unfold with_features, ref_of. simpl. unfold ref_of in Hhint. rewrite Hhint.
      now rewrite edge_features_idempotent.
  - now rewrite Hhint.
Qed.

Lemma applyShapeTypeHint_idempotent (provider : TypeHintProvider) (element : SModelElement) :
  applyShapeTypeHint provider (applyShapeTypeHint provider element)
  = applyShapeTypeHint provider element.
Proof.
  unfold applyShapeTypeHint.
  destruct (getShapeTypeHint provider (InputElement (ref_of element))) as [hint|] eqn:Hhint.
  - destruct (features element) as [| |s0] eqn:Hfs.
    + now rewrite Hhint, Hfs.
    + now rewrite Hhint, Hfs.
    + unfold ref_of. simpl. unfold ref_of in Hhint. rewrite Hhint.
      now rewrite (shape_features_idempotent hint s0).
  - now rewrite Hhint.
Qed.

Lemma applyShapeTypeHint_class (provider : TypeHintProvider) (element : SModelElement) :
  class (applyShapeTypeHint provider element) = class element.
Proof.
  unfold applyShapeTypeHint.
  destruct (getShapeTypeHint _ _); [|reflexivity].
  destruct (features element); reflexivity.
Qed.

Lemma applyEdgeTypeHint_class (provider : TypeHintProvider) (element : SModelElement) :
  class (applyEdgeTypeHint provider element) = class element.
Proof.
  unfold applyEdgeTypeHint.
  destruct (getEdgeTypeHint _ _); [|reflexivity].
  destruct (features element); reflexivity.
Qed.

Lemma applyTypeHints_idempotent (provider : TypeHintProvider) (element : SModelElement) :
  applyTypeHints provider (applyTypeHints provider element)
  = applyTypeHints provider element.
Proof.
  unfold applyTypeHints.
  destruct (class element) eqn:Hclass.
  - rewrite applyShapeTypeHint_class, Hclass. apply applyShapeTypeHint_idempotent.
  - rewrite applyShapeTypeHint_class, Hclass. apply applyShapeTypeHint_idempotent.
  - rewrite applyEdgeTypeHint_class, Hclass. apply applyEdgeTypeHint_idempotent.
  - now rewrite Hclass.
Qed.

(** When the lookup finds nothing, the element is handed back as it was. *)
Lemma applyTypeHints_no_hint (provider : TypeHintProvider) (element : SModelElement) :
  (forall n, n <= segment_count (type element) ->
     hint_registered provider element (segment_prefix (type element) n) = false) ->
  applyTypeHints provider element = element.
Proof.
  intros Hnone.
  unfold applyTypeHints, hint_registered in *.
  destruct (class element).
  - unfold applyShapeTypeHint, getShapeTypeHint.
    pose proof (getTypeHint_resolves (InputElement (ref_of element))
                  (shapeHints provider)) as Hres.
    destruct (getTypeHint _ _) as [hint|]; [|reflexivity].
    destruct Hres as (n & Hn & Hhit & _). simpl in Hn, Hhit.
    specialize (Hnone n Hn). now rewrite Hhit in Hnone.
  - unfold applyShapeTypeHint, getShapeTypeHint.
    pose proof (getTypeHint_resolves (InputElement (ref_of element))
                  (shapeHints provider)) as Hres.
    destruct (getTypeHint _ _) as [hint|]; [|reflexivity].
    destruct Hres as (n & Hn & Hhit & _). simpl in Hn, Hhit.
    specialize (Hnone n Hn). now rewrite Hhit in Hnone.
  - unfold applyEdgeTypeHint, getEdgeTypeHint.
    pose proof (getTypeHint_resolves (InputElement (ref_of element))
                  (edgeHints provider)) as Hres.
    destruct (getTypeHint _ _) as [hint|]; [|reflexivity].
    destruct Hres as (n & Hn & Hhit & _). simpl in Hn, Hhit.
    specialize (Hnone n Hn). now rewrite Hhit in Hnone.
  - reflexivity.
Qed.

Lemma applyTypeHints_not_modifiable (provider : TypeHintProvider) (element : SModelElement) :
  isModifiableFeatureSet (features element) = false ->
  applyTypeHints provider element = element.
Proof.
  intros Hfs. unfold applyTypeHints, applyShapeTypeHint, applyEdgeTypeHint.
  destruct (class element);
    try destruct (getShapeTypeHint _ _); try destruct (getEdgeTypeHint _ _);
    try reflexivity;
    destruct (features element); simpl in Hfs; try reflexivity; discriminate.
Qed.

(** ** The whole tree *)

Lemma SModelTree_forall_ind (P : SModelTree -> Prop) :
  (forall element children, Forall P children -> P (TreeNode element children)) ->
  forall tree, P tree.
Proof.
  intros step. fix IH 1. intros [element children]. apply step.
  induction children as [|child rest IHrest]; constructor.
  - apply IH.
  - exact IHrest.
Qed.

Lemma index_all_forEach_element (f : SModelElement -> SModelElement) (tree : SModelTree) :
  index_all (forEach_element f tree) = map f (index_all tree).
Proof.
  induction tree as [element children IH] using SModelTree_forall_ind.
  simpl. f_equal.
  induction IH as [|child rest Hchild _ IHrest]; [reflexivity|].
  simpl. rewrite map_app. now rewrite Hchild, IHrest.
Qed.

Lemma forEach_element_idempotent (f : SModelElement -> SModelElement) :
  (forall element, f (f element) = f element) ->
  forall tree, forEach_element f (forEach_element f tree) = forEach_element f tree.
Proof.
  intros Hf tree.
  induction tree as [element children IH] using SModelTree_forall_ind.
  simpl. rewrite Hf. f_equal.
  induction IH as [|child rest Hchild _ IHrest]; [reflexivity|].
  simpl. now rewrite Hchild, IHrest.
Qed.

Lemma execute_idempotent (provider : TypeHintProvider) (root : SModelTree) :
  execute provider (execute provider root) = execute provider root.
Proof.
  apply forEach_element_idempotent. apply applyTypeHints_idempotent.
Qed.

Lemma execute_lookup (provider : TypeHintProvider) (root : SModelTree) (i : nat) :
  index_all (execute provider root) !! i
  = applyTypeHints provider <$> index_all root !! i.
Proof.
  unfold execute. rewrite index_all_forEach_element.
  apply list_lookup_fmap.
Qed.

(** ** Valid edge types *)

Lemma get_In_values {V} (m : JsMap.t V) (k : string) (v : V) :
  JsMap.get m k = Some v -> In v (JsMap.values m).
Proof.
  induction m as [|[k' v'] rest IH]; simpl; [discriminate|].
  destruct (String.eqb k' k).
  - intros [= ->]. now left.
  - intros Hget. right. now apply IH.
Qed.

Lemma existsb_eqb_In (x : string) (l : list string) :
  existsb (String.eqb x) l = true <-> In x l.
Proof.
  rewrite existsb_exists. split.
  - intros (y & Hy & Heq). apply String.eqb_eq in Heq. now subst.
  - intros Hx. exists x. split; [exact Hx | apply String.eqb_refl].
Qed.

Lemma includes_In (l : list string) (x : string) :
  includes l x = true <-> In x l.
Proof. apply existsb_eqb_In. Qed.

(** Compatibility, as the spec words it: the candidate is the type id with
    some number of trailing segments stripped, possibly none, possibly all. *)
Lemma hasCompatibleType_spec (t candidate : string) :
  hasCompatibleType t candidate = true <->
  exists n, n <= segment_count t /\ candidate = segment_prefix t n.
Proof.
  unfold hasCompatibleType, type_and_ancestors.
  rewrite existsb_eqb_In. simpl. rewrite in_map_iff. split.
  - intros [Hexact | (n & Hn & Hin)].
    + exists (segment_count t). split; [lia|]. now rewrite segment_prefix_all.
    + apply in_rev, in_seq in Hin. exists n. split; [lia | congruence].
  - intros (n & Hn & ->).
    destruct (Nat.eq_dec n (segment_count t)) as [->|Hne].
    + left. symmetry. apply segment_prefix_all.
    + right. exists n. split; [reflexivity|]. apply in_rev.
      rewrite rev_involutive. apply in_seq. lia.
Qed.

Lemma getValidEdgeElementTypes_with_In (compatible : string -> string -> bool)
  (provider : TypeHintProvider) (input : TypeInput) (role : Role) (edgeType : string) :
  In edgeType (getValidEdgeElementTypes_with compatible provider input role) <->
  exists hint, In hint (JsMap.values (edgeHints provider)) /\
    edge_elementTypeId hint = edgeType /\
    exists endpoint,
      In endpoint (match role with
                   | source => sourceElementTypeIds hint
                   | target => targetElementTypeIds hint
                   end) /\
      compatible (getElementTypeId input) endpoint = true.
Proof.
  unfold getValidEdgeElementTypes_with.
  destruct role; rewrite in_map_iff; split.
  - intros (hint & Hid & Hin). apply filter_In in Hin as [Hin Hsome].
    apply existsb_exists in Hsome. eauto.
  - intros (hint & Hin & Hid & Hsome). exists hint. split; [exact Hid|].
    apply filter_In. split; [exact Hin|]. now apply existsb_exists.
  - intros (hint & Hid & Hin). apply filter_In in Hin as [Hin Hsome].
    apply existsb_exists in Hsome. eauto.
  - intros (hint & Hin & Hid & Hsome). exists hint. split; [exact Hid|].
    apply filter_In. split; [exact Hin|]. now apply existsb_exists.
Qed.

(** ** Correlated requests *)

Module DispatcherFacts.

Import GLSPActionDispatcher.

Lemma filter_swap {A} (f g : A -> bool) (l : list A) :
  List.filter f (List.filter g l) = List.filter g (List.filter f l).
Proof.
  induction l as [|x l IH]; [reflexivity|]. simpl.
  destruct (f x) eqn:Hf, (g x) eqn:Hg; simpl; rewrite ?Hf, ?Hg, IH; reflexivity.
Qed.

Lemma resolutions_dispatch (action : JsValue) (d : t) (future : nat) :
  resolutions (dispatch action d) future
  = resolutions d future
    ++ map (fun _ => action)
         (List.filter (fun p => matchPredicate p action) (pending_of d future)).
Proof.
  unfold resolutions, pending_of, dispatch. simpl.
  rewrite List.filter_app, map_app. f_equal.
  rewrite filter_swap.
  induction (pending d) as [|p l IH]; [reflexivity|]. simpl.
  destruct (matchPredicate p action); simpl; [|exact IH].
  destruct (Nat.eqb (request_id p) future); simpl; now rewrite IH.
Qed.

Lemma pending_of_dispatch (action : JsValue) (d : t) (future : nat) :
  pending_of (dispatch action d) future
  = List.filter (fun p => negb (matchPredicate p action)) (pending_of d future).
Proof. unfold pending_of, dispatch. simpl. apply filter_swap. Qed.

Lemma ids_below_next_dispatch (action : JsValue) (d : t) :
  ids_below_next d -> ids_below_next (dispatch action d).
Proof.
  intros [Hp Hr]. split; simpl.
  - rewrite List.Forall_forall in *. intros p Hin.
    apply filter_In in Hin as [Hin _]. now apply Hp.
  - apply Forall_app. split; [exact Hr|].
    rewrite List.Forall_forall in *. intros r Hin.
    apply in_map_iff in Hin as (p & <- & Hin).
    apply filter_In in Hin as [Hin _]. simpl. now apply Hp.
Qed.

Lemma ids_below_next_requestUntil (requestAction : JsValue)
  (predicate : JsValue -> bool) (d : t) :
  ids_below_next d -> ids_below_next (snd (requestUntil requestAction predicate d)).
Proof.
  intros Hd. apply (ids_below_next_dispatch requestAction) in Hd as [Hp Hr].
  split; simpl in *.
  - apply Forall_app. split.
    + eapply List.Forall_impl; [|exact Hp]. simpl. intros p Hlt. lia.
    + constructor; [simpl; lia | constructor].
  - eapply List.Forall_impl; [|exact Hr]. simpl. intros r Hlt. lia.
Qed.

Lemma ids_below_next_run (calls : list Call) (d : t) :
  ids_below_next d -> ids_below_next (run calls d).
Proof.
  revert d. induction calls as [|call calls IH]; intros d Hd; [exact Hd|].
  simpl. apply IH. destruct call; simpl.
  - now apply ids_below_next_dispatch.
  - now apply ids_below_next_requestUntil.
Qed.

Lemma ids_below_next_initial : ids_below_next initial.
Proof. split; constructor. Qed.

Lemma requestUntil_frame (requestAction : JsValue) (predicate : JsValue -> bool)
  (d : t) (future : nat) :
  future < next_id d ->
  resolutions (snd (requestUntil requestAction predicate d)) future
  = resolutions (dispatch requestAction d) future /\
  pending_of (snd (requestUntil requestAction predicate d)) future
  = pending_of (dispatch requestAction d) future.
Proof.
  intros Hlt. split; [reflexivity|].
  unfold pending_of. simpl. rewrite List.filter_app. simpl.
  destruct (Nat.eqb_spec (next_id d) future); [lia|]. apply app_nil_r.
Qed.

Lemma filter_none {A} (f : A -> bool) (l : list A) :
  Forall (fun x => f x = false) l -> List.filter f l = [].
Proof.
  induction 1 as [|x l Hx _ IH]; [reflexivity|]. simpl. now rewrite Hx.
Qed.

Lemma requestUntil_waiting (requestAction : JsValue) (predicate : JsValue -> bool)
  (d : t) :
  ids_below_next d ->
  waiting (snd (requestUntil requestAction predicate d))
    (fst (requestUntil requestAction predicate d)) predicate.
Proof.
  intros Hd. apply (ids_below_next_dispatch requestAction) in Hd as [Hp Hr].
  unfold waiting, requestUntil. cbn [fst snd]. split; [|split].
  - unfold resolutions. cbn [resolved]. rewrite filter_none; [reflexivity|].
    eapply List.Forall_impl; [|exact Hr]. intros r Hlt.
    apply Nat.eqb_neq. simpl in *. lia.
  - unfold pending_of. cbn [pending]. rewrite List.filter_app.
    rewrite filter_none.
    + simpl. now rewrite Nat.eqb_refl.
    + eapply List.Forall_impl; [|exact Hp]. intros p Hlt.
      apply Nat.eqb_neq. simpl in *. lia.
  - cbn [next_id]. lia.
Qed.

Lemma step_next_id (d : t) (call : Call) : next_id d <= next_id (step d call).
Proof. destruct call; simpl; lia. Qed.

Lemma step_frame (d : t) (call : Call) (future : nat) :
  future < next_id d ->
  resolutions (step d call) future
  = resolutions (dispatch (dispatched call) d) future /\
  pending_of (step d call) future
  = pending_of (dispatch (dispatched call) d) future.
Proof.
  intros Hlt. destruct call as [action | requestAction predicate].
  - split; reflexivity.
  - now apply requestUntil_frame.
Qed.

Lemma step_waiting (d : t) (call : Call) (future : nat) (predicate : JsValue -> bool) :
  waiting d future predicate ->
  if predicate (dispatched call)
  then settled (step d call) future (dispatched call)
  else waiting (step d call) future predicate.
Proof.
  intros (Hres & Hpend & Hlt).
  destruct (step_frame d call future Hlt) as [Hr Hp].
  pose proof (step_next_id d call) as Hnext.
  rewrite resolutions_dispatch, Hres, Hpend in Hr.
  rewrite pending_of_dispatch, Hpend in Hp. simpl in Hr, Hp.
  destruct (predicate (dispatched call)); simpl in Hr, Hp.
  - split; [exact Hr|]. split; [exact Hp | lia].
  - split; [exact Hr|]. split; [exact Hp | lia].
Qed.

Lemma step_settled (d : t) (call : Call) (future : nat) (action : JsValue) :
  settled d future action -> settled (step d call) future action.
Proof.
  intros (Hres & Hpend & Hlt).
  destruct (step_frame d call future Hlt) as [Hr Hp].
  pose proof (step_next_id d call) as Hnext.
  rewrite resolutions_dispatch, Hres, Hpend in Hr.
  rewrite pending_of_dispatch, Hpend in Hp. simpl in Hr, Hp.
  split; [exact Hr|]. split; [exact Hp | lia].
Qed.

Lemma run_settled (calls : list Call) (d : t) (future : nat) (action : JsValue) :
  settled d future action -> settled (run calls d) future action.
Proof.
  revert d. induction calls as [|call calls IH]; intros d Hd; [exact Hd|].
  simpl. apply IH. now apply step_settled.
Qed.

Lemma run_waiting (calls : list Call) (d : t) (future : nat)
  (predicate : JsValue -> bool) :
  waiting d future predicate ->
  match find predicate (map dispatched calls) with
  | Some action => settled (run calls d) future action
  | None => waiting (run calls d) future predicate
  end.
Proof.
  revert d. induction calls as [|call calls IH]; intros d Hd; [exact Hd|].
  simpl. pose proof (step_waiting d call future predicate Hd) as Hstep.
  destruct (predicate (dispatched call)).
  - now apply run_settled.
  - now apply IH.
Qed.

End DispatcherFacts.

(** * The claims *)

(** C1.  For every input with type id [t] and every registry [R],
    [getTypeHint] returns the hint registered under the longest prefix of
    [t], counted in colon segments, that is a key of [R]: the prefix with
    all segments is [t] itself and is tried first, the prefix with no
    segment is the empty string and is tried last; the lookup answers
    "not found" only when no prefix at all, the empty string included, is
    registered. *)
Theorem getTypeHint_longest_prefix {T} (input : TypeInput) (R : JsMap.t T) :
  let t := getElementTypeId input in
  segment_prefix t (segment_count t) = t /\
  segment_prefix t 0 = "" /\
  match getTypeHint input R with
  | Some hint =>
      exists n, n <= segment_count t /\
        JsMap.get R (segment_prefix t n) = Some hint /\
        forall m, n < m -> m <= segment_count t ->
          JsMap.get R (segment_prefix t m) = None
  | None =>
      forall n, n <= segment_count t -> JsMap.get R (segment_prefix t n) = None
  end.
Proof.
  intros t. split; [apply segment_prefix_all|]. split; [reflexivity|].
  apply getTypeHint_resolves.
Qed.

(** C2.  Running [ApplyTypeHintsCommand.execute] a second time on the tree
    the first run produced, with the same registry, leaves every element
    with the feature set it had after the first run, and with containment
    and connection predicates that answer every candidate as they did
    after the first run. *)
Theorem execute_twice_same_features_and_predicates
  (provider : TypeHintProvider) (root : SModelTree) :
  let first := index_all (execute provider root) in
  let second := index_all (execute provider (execute provider root)) in
  Forall2 (fun after_first after_second =>
             features after_second = features after_first /\
             (forall candidate,
                call_isContainableElement after_second candidate
                = call_isContainableElement after_first candidate) /\
             (forall routable role,
                call_canConnect after_second routable role
                = call_canConnect after_first routable role))
    first second.
Proof.
  intros first second. subst first second.
  rewrite execute_idempotent.
  apply Forall_Forall2_diag, List.Forall_forall.
  intros element _. repeat split.
Qed.

(** C3.  An element for whose type id and all its colon-segment prefixes no
    hint is registered comes out of one pass of the command exactly as it
    went in: same feature set, same predicates. *)
Theorem execute_no_hint_no_mutation
  (provider : TypeHintProvider) (root : SModelTree) (i : nat) (element : SModelElement) :
  index_all root !! i = Some element ->
  (forall n, n <= segment_count (type element) ->
     hint_registered provider element (segment_prefix (type element) n) = false) ->
  index_all (execute provider root) !! i = Some element.
Proof.
  intros Hi Hnone. rewrite execute_lookup, Hi. simpl.
  now rewrite applyTypeHints_no_hint.
Qed.

Lemma execute_no_hint_no_mutation_witness :
  index_all sample_root !! 2 = Some label_element /\
  index_all (execute sample_provider sample_root) !! 2 = Some label_element.
Proof.
  split; [reflexivity|].
  apply (execute_no_hint_no_mutation sample_provider sample_root 2 label_element).
  - reflexivity.
  - intros n Hn.
    destruct n as [|[|[|n]]]; [reflexivity | reflexivity | reflexivity |].
    exfalso. vm_compute in Hn. lia.
Defined.

(** C10.  The command mutates an element only when its [features] field is
    defined and is a [Set]: whatever the registry holds, an element whose
    feature set is missing or is not a [Set] comes out of the pass exactly
    as it went in, without tokens or predicates installed, and the pass
    itself completes. *)
Theorem execute_skips_unmodifiable_feature_sets
  (provider : TypeHintProvider) (root : SModelTree) (i : nat) (element : SModelElement) :
  index_all root !! i = Some element ->
  isModifiableFeatureSet (features element) = false ->
  index_all (execute provider root) !! i = Some element /\
  applyShapeTypeHint provider element = element /\
  applyEdgeTypeHint provider element = element.
Proof.
  intros Hi Hfs. split; [|split].
  - rewrite execute_lookup, Hi. simpl.
    now rewrite applyTypeHints_not_modifiable.
  - unfold applyShapeTypeHint. destruct (getShapeTypeHint _ _); [|reflexivity].
    destruct (features element); [reflexivity | reflexivity | discriminate].
  - unfold applyEdgeTypeHint. destruct (getEdgeTypeHint _ _); [|reflexivity].
    destruct (features element); [reflexivity | reflexivity | discriminate].
Qed.

Lemma execute_skips_unmodifiable_feature_sets_witness :
  getShapeTypeHint sample_provider (InputElement (ref_of bare_task_element))
  = Some node_hint /\
  index_all (execute sample_provider sample_root) !! 3 = Some bare_task_element.
Proof.
  split; [reflexivity|].
  apply (execute_skips_unmodifiable_feature_sets
           sample_provider sample_root 3 bare_task_element);
    reflexivity.
Defined.

(** C6.  With the registry holding exactly the shape hint for ["node"]
    (deletable, repositionable, neither resizable nor reparentable), a
    shape element of type ["node:task"] with a modifiable feature set has,
    after one run of the command, the deletable and movable tokens, neither
    the resizable nor the reparentable token, and both the connectable and
    the containable token; its two predicates answer [false] for every
    candidate, no container or endpoint types being declared. *)
Theorem execute_node_task_scenario
  (root : SModelTree) (i : nat) (element : SModelElement) (s : gset symbol) :
  index_all root !! i = Some element ->
  type element = "node:task" ->
  class element = SShapeElementClass ->
  features element = FeaturesSet s ->
  exists element',
    index_all (execute node_provider root) !! i = Some element' /\
    has_feature element' deletableFeature = true /\
    has_feature element' moveFeature = true /\
    has_feature element' resizeFeature = false /\
    has_feature element' reparentFeature = false /\
    has_feature element' connectableFeature = true /\
    has_feature element' containerFeature = true /\
    (forall candidate, call_isContainableElement element' candidate = Some false) /\
    (forall routable role, call_canConnect element' routable role = Some false).
Proof.
  intros Hi Htype Hclass Hfs.
  exists (applyTypeHints node_provider element).
  split; [rewrite execute_lookup, Hi; reflexivity|].
  unfold applyTypeHints. rewrite Hclass.
  unfold applyShapeTypeHint, getShapeTypeHint, getTypeHint.
  cbn [getElementTypeId ref_of ref_type]. rewrite Htype, Hfs.
  change (JsMap.get (shapeHints node_provider) "node:task") with (@None ShapeTypeHint).
  change (getTypeHint_loop (shapeHints node_provider) (rev (JsString.split "node:task")))
    with (Some node_hint).
  unfold has_feature, call_isContainableElement, call_canConnect.
  cbn [features isContainableElement canConnect node_hint shape_deletable
       shape_repositionable resizable reparentable].
  rewrite !bool_decide_eq_true, !bool_decide_eq_false.
  rewrite !elem_of_addOrRemove.
  unfold deletableFeature, moveFeature, connectableFeature, resizeFeature,
    containerFeature, reparentFeature.
  repeat split; try (intuition congruence).
  intros routable []; reflexivity.
Qed.

Lemma execute_node_task_scenario_witness :
  exists element',
    index_all (execute node_provider sample_root) !! 1 = Some element' /\
    has_feature element' deletableFeature = true /\
    has_feature element' moveFeature = true /\
    has_feature element' resizeFeature = false /\
    has_feature element' reparentFeature = false /\
    has_feature element' connectableFeature = true /\
    has_feature element' containerFeature = true /\
    (forall candidate, call_isContainableElement element' candidate = Some false) /\
    (forall routable role, call_canConnect element' routable role = Some false).
Proof.
  apply (execute_node_task_scenario sample_root 1 task_element {[resizeFeature]});
    reflexivity.
Defined.

(** C5.  For every type id [t] and either role, the ids returned by
    [getValidEdgeElementTypes] are exactly the [elementTypeId]s of the
    registered edge hints whose [sourceElementTypeIds] (role source) or
    [targetElementTypeIds] (role target) contain [t] or an ancestor of [t],
    that is [t] with trailing colon segments stripped; no other id is
    returned. *)
Theorem getValidEdgeElementTypes_exact
  (provider : TypeHintProvider) (input : TypeInput) (role : Role) (edgeType : string) :
  let t := getElementTypeId input in
  In edgeType (getValidEdgeElementTypes provider input role) <->
  exists hint, In hint (JsMap.values (edgeHints provider)) /\
    edge_elementTypeId hint = edgeType /\
    exists n, n <= segment_count t /\
      In (segment_prefix t n)
        (match role with
         | source => sourceElementTypeIds hint
         | target => targetElementTypeIds hint
         end).
Proof.
  intros t. unfold getValidEdgeElementTypes.
  rewrite getValidEdgeElementTypes_with_In. fold t. split.
  - intros (hint & Hin & Hid & endpoint & Hend & Hcompat).
    apply hasCompatibleType_spec in Hcompat as (n & Hn & ->). eauto 10.
  - intros (hint & Hin & Hid & n & Hn & Hend).
    exists hint. split; [exact Hin|]. split; [exact Hid|].
    exists (segment_prefix t n). split; [exact Hend|].
    apply hasCompatibleType_spec. eauto.
Qed.

(** C7.  Whatever the tests of the validation status are, a response that
    is not a well-formed [SetEditValidationResultAction] is translated into
    the neutral result [{severity: 'ok'}], and a response that is not a
    well-formed [SetContextActions] into the empty list; in both cases the
    translation returns and does not throw, a missing ([undefined])
    response included. *)
Theorem malformed_response_gives_neutral_result
  (isError isWarning : JsValue -> bool) (action : JsValue) :
  (SetEditValidationResultAction.is_ action = false ->
   getValidationResultFromResponse isError isWarning action
   = Normal {| message := None; severity := ok |}) /\
  (SetContextActions.is_ action = false ->
   getContextActionsFromResponse action = Normal (JsArray [])).
Proof.
  unfold getValidationResultFromResponse, getContextActionsFromResponse.
  split; intros Hguard; now rewrite Hguard.
Qed.

Lemma malformed_response_gives_neutral_result_witness :
  getValidationResultFromResponse (fun _ => true) (fun _ => true) JsUndefined
  = Normal {| message := None; severity := ok |} /\
  getContextActionsFromResponse (JsObject [("kind", JsText "setContextActions")])
  = Normal (JsArray []).
Proof.
  split.
  - apply (malformed_response_gives_neutral_result (fun _ => true) (fun _ => true)
             JsUndefined).
    reflexivity.
  - apply (malformed_response_gives_neutral_result (fun _ => true) (fun _ => true)
             (JsObject [("kind", JsText "setContextActions")])).
    reflexivity.
Defined.

(** C8.  [undo] and [redo] each log one warning, return the model that was
    current when they were called, leave the model and the listeners'
    notifications as they were, and return normally. *)
Theorem undo_redo_warn_and_keep_model (stack : GLSPCommandStack.t) :
  let after_undo := snd (GLSPCommandStack.undo stack) in
  let after_redo := snd (GLSPCommandStack.redo stack) in
  (fst (GLSPCommandStack.undo stack) = Normal (GLSPCommandStack.currentModel stack) /\
   GLSPCommandStack.warnings after_undo
   = GLSPCommandStack.warnings stack ++ [GLSPCommandStack.undo_warning] /\
   GLSPCommandStack.currentModel after_undo = GLSPCommandStack.currentModel stack /\
   GLSPCommandStack.fired after_undo = GLSPCommandStack.fired stack /\
   GLSPCommandStack.notified after_undo = GLSPCommandStack.notified stack) /\
  (fst (GLSPCommandStack.redo stack) = Normal (GLSPCommandStack.currentModel stack) /\
   GLSPCommandStack.warnings after_redo
   = GLSPCommandStack.warnings stack ++ [GLSPCommandStack.redo_warning] /\
   GLSPCommandStack.currentModel after_redo = GLSPCommandStack.currentModel stack /\
   GLSPCommandStack.fired after_redo = GLSPCommandStack.fired stack /\
   GLSPCommandStack.notified after_redo = GLSPCommandStack.notified stack).
Proof. repeat split. Qed.

(** C9.  [execute] fires the model-root-changed event, carrying the root
    the execution produced and delivered to every subscribed listener in
    subscription order, exactly when the command is an instance of
    [SetModelCommand] or of [UpdateModelCommand]; for any other command
    nothing is fired and no listener is called. *)
Theorem execute_fires_iff_set_or_update
  (super_execute : GLSPCommandStack.ICommand -> SModelTree -> SModelTree)
  (command : GLSPCommandStack.ICommand) (stack : GLSPCommandStack.t) :
  let result := fst (GLSPCommandStack.execute super_execute command stack) in
  let stack' := snd (GLSPCommandStack.execute super_execute command stack) in
  let set_or_update :=
    GLSPCommandStack.instanceof (GLSPCommandStack.command_class command)
      GLSPCommandStack.SetModelCommand
    || GLSPCommandStack.instanceof (GLSPCommandStack.command_class command)
         GLSPCommandStack.UpdateModelCommand in
  result = super_execute command (GLSPCommandStack.currentModel stack) /\
  GLSPCommandStack.fired stack'
  = GLSPCommandStack.fired stack ++ (if set_or_update then [result] else []) /\
  GLSPCommandStack.notified stack'
  = GLSPCommandStack.notified stack
    ++ (if set_or_update
        then map (fun listener => (listener, result)) (GLSPCommandStack.callbacks stack)
        else []) /\
  (GLSPCommandStack.fired stack' <> GLSPCommandStack.fired stack
   <-> set_or_update = true).
Proof.
  intros result stack' set_or_update. subst result stack'.
  unfold GLSPCommandStack.execute. fold set_or_update.
  destruct set_or_update; simpl.
  - split; [reflexivity|]. split; [reflexivity|]. split; [reflexivity|].
    split; [reflexivity|].
    intros _ Heq. apply (f_equal (@length _)) in Heq.
    rewrite length_app in Heq. simpl in Heq. lia.
  - rewrite !app_nil_r.
    split; [reflexivity|]. split; [reflexivity|]. split; [reflexivity|].
    split; [|discriminate].
    intros Hne. now contradiction Hne.
Qed.

(** C4.  After any history of the dispatcher, the future returned by
    [requestUntil] is resolved by the calls that follow with the first
    action dispatched for which the predicate holds, whatever else is
    dispatched in between; it is resolved at most once, never with an
    action failing the predicate, and as long as no matching action has
    been dispatched it stays unresolved. *)
Theorem requestUntil_resolves_with_first_match
  (history subsequent : list GLSPActionDispatcher.Call)
  (requestAction : JsValue) (predicate : JsValue -> bool) :
  let d0 := GLSPActionDispatcher.run history GLSPActionDispatcher.initial in
  let future := fst (GLSPActionDispatcher.requestUntil requestAction predicate d0) in
  let d1 := snd (GLSPActionDispatcher.requestUntil requestAction predicate d0) in
  let outcome :=
    GLSPActionDispatcher.resolutions (GLSPActionDispatcher.run subsequent d1) future in
  outcome
  = match find predicate (map GLSPActionDispatcher.dispatched subsequent) with
    | Some action => [action]
    | None => []
    end /\
  length outcome <= 1 /\
  (forall action, In action outcome -> predicate action = true).
Proof.
  intros d0 future d1 outcome.
  assert (Hwait : GLSPActionDispatcher.waiting d1 future predicate).
  { apply DispatcherFacts.requestUntil_waiting.
    apply DispatcherFacts.ids_below_next_run, DispatcherFacts.ids_below_next_initial. }
  pose proof (DispatcherFacts.run_waiting subsequent d1 future predicate Hwait) as Hrun.
  fold outcome in Hrun. unfold GLSPActionDispatcher.settled, GLSPActionDispatcher.waiting in Hrun.
  destruct (find predicate (map GLSPActionDispatcher.dispatched subsequent))
    as [action|] eqn:Hfind.
  - destruct Hrun as (Hout & _). fold outcome in Hout. rewrite Hout.
    split; [reflexivity|]. split; [simpl; lia|].
    intros a [<-|[]]. now apply find_some in Hfind.
  - destruct Hrun as (Hout & _). fold outcome in Hout. rewrite Hout.
    split; [reflexivity|]. split; [simpl; lia|]. intros a [].
Qed.

(** * Further properties of the code *)

(** ** The registry as a map *)

Lemma get_set_eq {V} (m : JsMap.t V) (k : string) (v : V) :
  JsMap.get (JsMap.set m k v) k = Some v.
Proof.
  induction m as [|[k' v'] rest IH]; simpl.
  - now rewrite String.eqb_refl.
  - destruct (String.eqb k' k) eqn:Hk; simpl.
    + now rewrite String.eqb_refl.
    + now rewrite Hk.
Qed.

Lemma get_set_ne {V} (m : JsMap.t V) (k k' : string) (v : V) :
  k <> k' -> JsMap.get (JsMap.set m k v) k' = JsMap.get m k'.
Proof.
  intros Hne. induction m as [|[k0 v0] rest IH]; simpl.
  - destruct (String.eqb_spec k k'); [contradiction | reflexivity].
  - destruct (String.eqb_spec k0 k) as [->|Hk0]; simpl.
    + destruct (String.eqb_spec k k'); [contradiction | reflexivity].
    + destruct (String.eqb k0 k'); [reflexivity | exact IH].
Qed.

Lemma get_fold_set {V} (key : V -> string) (hints : list V) (m : JsMap.t V) (k : string) :
  JsMap.get (fold_left (fun m hint => JsMap.set m (key hint) hint) hints m) k
  = match find (fun hint => String.eqb (key hint) k) (rev hints) with
    | Some hint => Some hint
    | None => JsMap.get m k
    end.
Proof.
  induction hints as [|hint hints IH] using rev_ind; [reflexivity|].
  rewrite fold_left_app, rev_app_distr. simpl.
  destruct (String.eqb_spec (key hint) k) as [<-|Hne].
  - apply get_set_eq.
  - rewrite get_set_ne by exact Hne. exact IH.
Qed.

(** Keys are pairwise distinct and every hint sits under its own id. *)
Lemma set_keeps_keys_distinct {V} (key : V -> string) (m : JsMap.t V) (v : V) :
  List.NoDup (map fst m) /\ List.Forall (fun entry => key (snd entry) = fst entry) m ->
  List.NoDup (map fst (JsMap.set m (key v) v)) /\
  List.Forall (fun entry => key (snd entry) = fst entry) (JsMap.set m (key v) v) /\
  (forall k, In k (map fst (JsMap.set m (key v) v)) <-> k = key v \/ In k (map fst m)).
Proof.
  induction m as [|[k0 v0] rest IH]; simpl; intros [Hnd Hall].
  - repeat split.
    + constructor; [intros [] | constructor].
    + constructor; [reflexivity | constructor].
    + intros [H|[]]; now left.
    + intros [H|[]]; now left.
  - apply List.NoDup_cons_iff in Hnd as [Hnotin Hnd].
    apply List.Forall_cons_iff in Hall as [Hk0 Hall]. simpl in Hk0.
    destruct (String.eqb_spec k0 (key v)) as [->|Hne]; simpl.
    + repeat split.
      * constructor; assumption.
      * constructor; [reflexivity | assumption].
      * intros [H|H]; [now left | now right; right].
      * intros [H|[H|H]]; [now left | now left | now right].
    + destruct (IH (conj Hnd Hall)) as (IHnd & IHall & IHin).
      repeat split.
      * constructor; [|exact IHnd].
        intros Hin. apply IHin in Hin as [Heq|Hin]; [congruence | contradiction].
      * constructor; [exact Hk0 | exact IHall].
      * intros [H|H]; [now right; left|].
        apply IHin in H as [H|H]; [now left | now right; right].
      * intros [H|[H|H]].
        -- right. apply IHin. now left.
        -- now left.
        -- right. apply IHin. now right.
Qed.

Lemma fold_set_keeps_keys_distinct {V} (key : V -> string) (hints : list V) (m : JsMap.t V) :
  List.NoDup (map fst m) /\ List.Forall (fun entry => key (snd entry) = fst entry) m ->
  let m' := fold_left (fun m hint => JsMap.set m (key hint) hint) hints m in
  List.NoDup (map fst m') /\ List.Forall (fun entry => key (snd entry) = fst entry) m'.
Proof.
  revert m. induction hints as [|hint hints IH]; intros m Hm; [exact Hm|].
  simpl. apply IH.
  destruct (set_keeps_keys_distinct key m hint Hm) as (Hnd & Hall & _).
  now split.
Qed.

(** The registries the provider can hold: those [handle] builds from the
    empty ones. *)
Lemma handled_registries_well_keyed (actions : list SetTypeHintsAction) :
  let provider := fold_left handle actions initialProvider in
  (List.NoDup (map fst (shapeHints provider)) /\
   List.Forall (fun entry => shape_elementTypeId (snd entry) = fst entry)
     (shapeHints provider)) /\
  (List.NoDup (map fst (edgeHints provider)) /\
   List.Forall (fun entry => edge_elementTypeId (snd entry) = fst entry)
     (edgeHints provider)).
Proof.
  assert (Hgen : forall provider,
    (List.NoDup (map fst (shapeHints provider)) /\
     List.Forall (fun entry => shape_elementTypeId (snd entry) = fst entry)
       (shapeHints provider)) /\
    (List.NoDup (map fst (edgeHints provider)) /\
     List.Forall (fun entry => edge_elementTypeId (snd entry) = fst entry)
       (edgeHints provider)) ->
    let provider' := fold_left handle actions provider in
    (List.NoDup (map fst (shapeHints provider')) /\
     List.Forall (fun entry => shape_elementTypeId (snd entry) = fst entry)
       (shapeHints provider')) /\
    (List.NoDup (map fst (edgeHints provider')) /\
     List.Forall (fun entry => edge_elementTypeId (snd entry) = fst entry)
       (edgeHints provider'))).
  { induction actions as [|action actions IH]; intros provider Hp; [exact Hp|].
    simpl. apply IH. destruct Hp as [Hs He]. split; simpl.
    - now apply (fold_set_keeps_keys_distinct shape_elementTypeId).
    - now apply (fold_set_keeps_keys_distinct edge_elementTypeId). }
  apply Hgen. simpl. repeat split; constructor.
Qed.

Lemma NoDup_map_filter {A B} (g : A -> B) (f : A -> bool) (l : list A) :
  List.NoDup (map g l) -> List.NoDup (map g (List.filter f l)).
Proof.
  induction l as [|x l IH]; simpl; intros Hnd; [constructor|].
  apply List.NoDup_cons_iff in Hnd as [Hnotin Hnd].
  destruct (f x); simpl; [|now apply IH].
  constructor; [|now apply IH].
  intros Hin. apply Hnotin.
  apply in_map_iff in Hin as (y & Hy & Hin).
  apply filter_In in Hin as [Hin _].
  apply in_map_iff. eauto.
Qed.

Lemma ids_of_well_keyed_values {V} (key : V -> string) (m : JsMap.t V) :
  List.Forall (fun entry => key (snd entry) = fst entry) m ->
  map key (JsMap.values m) = map fst m.
Proof.
  induction 1 as [|[k v] rest Hk _ IH]; [reflexivity|].
  simpl in *. now rewrite Hk, IH.
Qed.

(** X1.  After [handle] has taken in a [SetTypeHintsAction], the hint found
    under an id is the last hint of the action carrying that id, whole and
    not merged with an earlier one; an id the action does not mention keeps
    the hint it had.  The same holds for shape and for edge hints. *)
Theorem handle_last_hint_wins (provider : TypeHintProvider)
  (action : SetTypeHintsAction) (k : string) :
  JsMap.get (shapeHints (handle provider action)) k
  = match find (fun hint => String.eqb (shape_elementTypeId hint) k)
            (rev (action_shapeHints action)) with
    | Some hint => Some hint
    | None => JsMap.get (shapeHints provider) k
    end /\
  JsMap.get (edgeHints (handle provider action)) k
  = match find (fun hint => String.eqb (edge_elementTypeId hint) k)
            (rev (action_edgeHints action)) with
    | Some hint => Some hint
    | None => JsMap.get (edgeHints provider) k
    end.
Proof.
  split; simpl.
  - apply (get_fold_set shape_elementTypeId).
  - apply (get_fold_set edge_elementTypeId).
Qed.

(** X2.  Whatever actions the provider has handled since it was created,
    and whatever the compatibility test is, [getValidEdgeElementTypes]
    lists no edge type twice. *)
Theorem valid_edge_types_without_duplicates
  (compatible : string -> string -> bool) (actions : list SetTypeHintsAction)
  (input : TypeInput) (role : Role) :
  List.NoDup (getValidEdgeElementTypes_with compatible
                (fold_left handle actions initialProvider) input role).
Proof.
  destruct (handled_registries_well_keyed actions) as [_ [Hnd Hall]].
  unfold getValidEdgeElementTypes_with.
  destruct role; apply NoDup_map_filter;
    rewrite (ids_of_well_keyed_values edge_elementTypeId) by exact Hall;
    exact Hnd.
Qed.

(** ** The lookup and the registrations it reads *)

Lemma getTypeHint_loop_ext {T} (R R' : JsMap.t T) (rev_subtypes : list string) :
  (forall n, n < length rev_subtypes ->
     JsMap.get R (JsString.join (take n (rev rev_subtypes)))
     = JsMap.get R' (JsString.join (take n (rev rev_subtypes)))) ->
  getTypeHint_loop R rev_subtypes = getTypeHint_loop R' rev_subtypes.
Proof.
  induction rev_subtypes as [|last popped IH]; [reflexivity|].
  simpl. intros Hsame.
  assert (Hshort : forall n, n <= length popped ->
            take n (rev popped ++ [last]) = take n (rev popped)).
  { intros n Hn. rewrite firstn_app.
    replace (n - length (rev popped)) with 0 by (rewrite length_rev; lia).
    simpl. apply app_nil_r. }
  assert (Hfull : take (length popped) (rev popped) = rev popped).
  { rewrite <- (length_rev popped). apply firstn_all. }
  pose proof (Hsame (length popped) ltac:(lia)) as Hhere.
  rewrite Hshort, Hfull in Hhere by lia. rewrite <- Hhere.
  destruct (JsMap.get R (JsString.join (rev popped))); [reflexivity|].
  apply IH. intros n Hn. specialize (Hsame n ltac:(lia)).
  now rewrite Hshort in Hsame by lia.
Qed.

Lemma getTypeHint_ext {T} (R R' : JsMap.t T) (input : TypeInput) :
  let t := getElementTypeId input in
  (forall n, n <= segment_count t ->
     JsMap.get R (segment_prefix t n) = JsMap.get R' (segment_prefix t n)) ->
  getTypeHint input R = getTypeHint input R'.
Proof.
  intros t Hsame. unfold getTypeHint. fold t.
  pose proof (Hsame (segment_count t) ltac:(lia)) as Hexact.
  rewrite segment_prefix_all in Hexact. rewrite <- Hexact.
  destruct (JsMap.get R t); [reflexivity|].
  apply getTypeHint_loop_ext. intros n Hn.
  rewrite rev_involutive. rewrite length_rev in Hn.
  apply Hsame. unfold segment_count. lia.
Qed.

Lemma split_app_colon (a b : string) :
  JsString.split (a ++ String JsString.colon b)%string
  = JsString.split a ++ JsString.split b.
Proof.
  induction a as [|c a IH]; simpl.
  - reflexivity.
  - rewrite IH. destruct (Ascii.eqb c JsString.colon); [reflexivity|].
    pose proof (split_not_nil a) as Hne.
    destruct (JsString.split a); [congruence | reflexivity].
Qed.

(** X3.  Registering a hint under a key that is neither the type id nor one
    of its colon-segment prefixes does not change what the lookup returns
    for that type. *)
Theorem getTypeHint_unaffected_by_other_keys {T} (R : JsMap.t T)
  (input : TypeInput) (k : string) (v : T) :
  (forall n, n <= segment_count (getElementTypeId input) ->
     segment_prefix (getElementTypeId input) n <> k) ->
  getTypeHint input (JsMap.set R k v) = getTypeHint input R.
Proof.
  intros Hother. apply getTypeHint_ext. intros n Hn.
  apply get_set_ne. intros Heq. now apply (Hother n Hn).
Qed.

Lemma getTypeHint_unaffected_by_other_keys_witness :
  getTypeHint (InputTypeId "node:task") (JsMap.set (shapeHints node_provider) "edge" node_hint)
  = getTypeHint (InputTypeId "node:task") (shapeHints node_provider).
Proof.
  apply (getTypeHint_unaffected_by_other_keys (shapeHints node_provider)
           (InputTypeId "node:task") "edge" node_hint).
  intros n Hn.
  destruct n as [|[|[|n]]]; [discriminate | discriminate | discriminate |].
  exfalso. vm_compute in Hn. lia.
Defined.

(** X4.  A hint registered under the empty string is a catch-all: every
    lookup then finds a hint, and it finds that one whenever no prefix with
    at least one segment is registered. *)
Theorem empty_key_is_catch_all {T} (R : JsMap.t T) (input : TypeInput) (hint : T) :
  JsMap.get R "" = Some hint ->
  (exists found, getTypeHint input R = Some found) /\
  ((forall n, 0 < n -> n <= segment_count (getElementTypeId input) ->
      JsMap.get R (segment_prefix (getElementTypeId input) n) = None) ->
   getTypeHint input R = Some hint).
Proof.
  intros Hempty.
  pose proof (getTypeHint_resolves input R) as Hres. simpl in Hres.
  destruct (getTypeHint input R) as [found|].
  - split; [eauto|]. intros Hnone.
    destruct Hres as (n & Hn & Hhit & _).
    destruct n as [|n].
    + rewrite segment_prefix_0 in Hhit. congruence.
    + rewrite Hnone in Hhit by lia. discriminate.
  - specialize (Hres 0 ltac:(lia)). rewrite segment_prefix_0 in Hres. congruence.
Qed.

Lemma empty_key_is_catch_all_witness :
  (exists found,
     getTypeHint (InputTypeId "edge:flow") (JsMap.set JsMap.empty "" node_hint)
     = Some found) /\
  getTypeHint (InputTypeId "edge:flow") (JsMap.set JsMap.empty "" node_hint)
  = Some node_hint.
Proof.
  destruct (empty_key_is_catch_all (JsMap.set JsMap.empty "" node_hint)
              (InputTypeId "edge:flow") node_hint eq_refl) as [Hfound Hthat].
  split; [exact Hfound|]. apply Hthat.
  intros n Hpos Hn.
  destruct n as [|[|[|n]]]; [lia | reflexivity | reflexivity |].
  exfalso. vm_compute in Hn. lia.
Defined.

(** X5.  A type id made of a registered or unregistered parent id, a colon
    and one more segment, and not registered itself, resolves to whatever
    its parent id resolves to. *)
Theorem unregistered_subtype_inherits {T} (R : JsMap.t T) (t seg : string) :
  JsString.split seg = [seg] ->
  JsMap.get R (t ++ String JsString.colon seg)%string = None ->
  getTypeHint (InputTypeId (t ++ String JsString.colon seg)%string) R
  = getTypeHint (InputTypeId t) R.
Proof.
  intros Hseg Hmiss. unfold getTypeHint. simpl getElementTypeId. cbv zeta.
  rewrite Hmiss, split_app_colon, Hseg, rev_app_distr. simpl.
  rewrite rev_involutive, join_split. reflexivity.
Qed.

Lemma unregistered_subtype_inherits_witness :
  getTypeHint (InputTypeId "node:task") (shapeHints node_provider)
  = getTypeHint (InputTypeId "node") (shapeHints node_provider).
Proof.
  apply (unregistered_subtype_inherits (shapeHints node_provider) "node" "task");
    reflexivity.
Defined.

(** ** What one pass does to an element *)

(** X6.  After [addOrRemove], the feature set holds the given token exactly
    when [add] was true, and holds any other token exactly when it did
    before. *)
Theorem addOrRemove_changes_only_its_token (s : gset symbol) (feature x : symbol)
  (add : bool) :
  x ∈ addOrRemove s feature add <->
  (x = feature /\ add = true) \/ (x <> feature /\ x ∈ s).
Proof. apply elem_of_addOrRemove. Qed.

#[local] Ltac token_facts :=
  rewrite ?elem_of_addOrRemove;
  unfold deletableFeature, editFeature, moveFeature, connectableFeature,
    resizeFeature, reconnectFeature, containerFeature, reparentFeature in *;
  intuition congruence.

(** X7.  For a shape element with a [Set] of features and a resolved hint,
    the pass leaves the deletable, movable, resizable and reparentable
    tokens present exactly when the hint's flag is true, adds the container
    and connectable tokens in any case, and leaves every other token as it
    was. *)
Theorem applyShapeTypeHint_tokens_follow_hint (provider : TypeHintProvider)
  (element : SModelElement) (hint : ShapeTypeHint) (s : gset symbol) :
  getShapeTypeHint provider (InputElement (ref_of element)) = Some hint ->
  features element = FeaturesSet s ->
  exists s',
    features (applyShapeTypeHint provider element) = FeaturesSet s' /\
    (deletableFeature ∈ s' <-> shape_deletable hint = true) /\
    (moveFeature ∈ s' <-> shape_repositionable hint = true) /\
    (resizeFeature ∈ s' <-> resizable hint = true) /\
    (reparentFeature ∈ s' <-> reparentable hint = true) /\
    containerFeature ∈ s' /\
    connectableFeature ∈ s' /\
    (forall x, x <> deletableFeature -> x <> moveFeature -> x <> resizeFeature ->
               x <> reparentFeature -> x <> containerFeature ->
               x <> connectableFeature ->
               (x ∈ s' <-> x ∈ s)).
Proof.
  intros Hhint Hfs. unfold applyShapeTypeHint. rewrite Hhint, Hfs.
  eexists. split; [reflexivity|].
  repeat split; token_facts.
Qed.

Lemma applyShapeTypeHint_tokens_follow_hint_witness :
  exists s',
    features (applyShapeTypeHint node_provider task_element) = FeaturesSet s' /\
    (deletableFeature ∈ s' <-> shape_deletable node_hint = true) /\
    (moveFeature ∈ s' <-> shape_repositionable node_hint = true) /\
    (resizeFeature ∈ s' <-> resizable node_hint = true) /\
    (reparentFeature ∈ s' <-> reparentable node_hint = true) /\
    containerFeature ∈ s' /\
    connectableFeature ∈ s' /\
    (forall x, x <> deletableFeature -> x <> moveFeature -> x <> resizeFeature ->
               x <> reparentFeature -> x <> containerFeature ->
               x <> connectableFeature ->
               (x ∈ s' <-> x ∈ ({[resizeFeature]} : gset symbol))).
Proof.
  apply (applyShapeTypeHint_tokens_follow_hint node_provider task_element node_hint
           {[resizeFeature]}); reflexivity.
Defined.

(** X8.  For the same shape element, the pass installs both predicates:
    [isContainableElement] accepts a candidate exactly when the hint
    declares containable types and the candidate's own type id is listed
    among them as it stands, and [canConnect] accepts a routable for a role
    exactly when the routable's type is one of the valid edge types of the
    element for that role. *)
Theorem applyShapeTypeHint_installs_predicates (provider : TypeHintProvider)
  (element : SModelElement) (hint : ShapeTypeHint) (s : gset symbol) :
  getShapeTypeHint provider (InputElement (ref_of element)) = Some hint ->
  features element = FeaturesSet s ->
  let element' := applyShapeTypeHint provider element in
  (forall candidate, exists answer,
     call_isContainableElement element' candidate = Some answer /\
     (answer = true <->
      exists ids, containableElementTypeIds hint = Some ids /\
                  In (getElementTypeId candidate) ids)) /\
  (forall routable role, exists answer,
     call_canConnect element' routable role = Some answer /\
     (answer = true <->
      In (ref_type routable)
         (getValidEdgeElementTypes provider (InputElement (ref_of element)) role))).
Proof.
  intros Hhint Hfs element'. subst element'.
  unfold applyShapeTypeHint. rewrite Hhint, Hfs.
  unfold call_isContainableElement, call_canConnect, createContainable,
    createConnectable. cbn [isContainableElement canConnect]. split.
  - intros candidate. eexists. split; [reflexivity|].
    destruct (containableElementTypeIds hint) as [ids|].
    + rewrite includes_In. split.
      * intros Hin. exists ids. now split.
      * intros (ids' & [= <-] & Hin). exact Hin.
    + split; [discriminate|]. intros (ids & Hids & _). discriminate.
  - intros routable role. eexists. split; [reflexivity|].
    destruct role; apply includes_In.
Qed.

Lemma applyShapeTypeHint_installs_predicates_witness :
  let element' := applyShapeTypeHint sample_provider task_element in
  (forall candidate, exists answer,
     call_isContainableElement element' candidate = Some answer /\
     (answer = true <->
      exists ids, containableElementTypeIds node_hint = Some ids /\
                  In (getElementTypeId candidate) ids)) /\
  (forall routable role, exists answer,
     call_canConnect element' routable role = Some answer /\
     (answer = true <->
      In (ref_type routable)
         (getValidEdgeElementTypes sample_provider
            (InputElement (ref_of task_element)) role))).
Proof.
  apply (applyShapeTypeHint_installs_predicates sample_provider task_element
           node_hint {[resizeFeature]}); reflexivity.
Defined.

(** X9.  For an edge with a [Set] of features and a resolved hint, the pass
    leaves the deletable, editable and reconnectable tokens present exactly
    when the hint's [deletable], [routable] and [repositionable] flags are
    true, leaves every other token as it was, and installs no predicate. *)
Theorem applyEdgeTypeHint_tokens_follow_hint (provider : TypeHintProvider)
  (element : SModelElement) (hint : EdgeTypeHint) (s : gset symbol) :
  getEdgeTypeHint provider (InputElement (ref_of element)) = Some hint ->
  features element = FeaturesSet s ->
  let element' := applyEdgeTypeHint provider element in
  (exists s',
     features element' = FeaturesSet s' /\
     (deletableFeature ∈ s' <-> edge_deletable hint = true) /\
     (editFeature ∈ s' <-> routable hint = true) /\
     (reconnectFeature ∈ s' <-> edge_repositionable hint = true) /\
     (forall x, x <> deletableFeature -> x <> editFeature -> x <> reconnectFeature ->
                (x ∈ s' <-> x ∈ s))) /\
  isContainableElement element' = isContainableElement element /\
  canConnect element' = canConnect element.
Proof.
  intros Hhint Hfs element'. subst element'.
  unfold applyEdgeTypeHint. rewrite Hhint, Hfs. split; [|split; reflexivity].
  eexists. split; [reflexivity|].
  repeat split; token_facts.
Qed.

Lemma applyEdgeTypeHint_tokens_follow_hint_witness :
  let edge :=
    {| id := "e1"; type := "edge:flow:async"; class := SEdgeClass;
       features := FeaturesSet {[reconnectFeature; moveFeature]};
       isContainableElement := None; canConnect := None |} in
  let element' := applyEdgeTypeHint sample_provider edge in
  (exists s',
     features element' = FeaturesSet s' /\
     (deletableFeature ∈ s' <-> edge_deletable flow_hint = true) /\
     (editFeature ∈ s' <-> routable flow_hint = true) /\
     (reconnectFeature ∈ s' <-> edge_repositionable flow_hint = true) /\
     (forall x, x <> deletableFeature -> x <> editFeature -> x <> reconnectFeature ->
                (x ∈ s' <-> x ∈ ({[reconnectFeature; moveFeature]} : gset symbol)))) /\
  isContainableElement element' = None /\
  canConnect element' = None.
Proof.
  intros edge.
  apply (applyEdgeTypeHint_tokens_follow_hint sample_provider edge flow_hint
           {[reconnectFeature; moveFeature]}); reflexivity.
Defined.

Lemma applyTypeHints_keeps_identity (provider : TypeHintProvider) (element : SModelElement) :
  id (applyTypeHints provider element) = id element /\
  type (applyTypeHints provider element) = type element /\
  class (applyTypeHints provider element) = class element.
Proof.
  unfold applyTypeHints, applyShapeTypeHint, applyEdgeTypeHint.
  destruct (class element) eqn:Hclass;
    try destruct (getShapeTypeHint _ _); try destruct (getEdgeTypeHint _ _);
    try destruct (features element); simpl; rewrite ?Hclass; repeat split.
Qed.

(** X10.  A pass of [ApplyTypeHintsCommand] never changes which elements
    the model holds: the indexed elements keep their number, their order,
    their ids, their type ids and their classes. *)
Theorem execute_keeps_ids_types_and_classes (provider : TypeHintProvider)
  (root : SModelTree) :
  map id (index_all (execute provider root)) = map id (index_all root) /\
  map type (index_all (execute provider root)) = map type (index_all root) /\
  map class (index_all (execute provider root)) = map class (index_all root) /\
  length (index_all (execute provider root)) = length (index_all root).
Proof.
  unfold execute. rewrite index_all_forEach_element, !map_map, length_map.
  repeat split; apply map_ext; intros element;
    apply (applyTypeHints_keeps_identity provider element).
Qed.

(** ** The command stack over many commands *)

Lemma execute_keeps_callbacks
  (super_execute : GLSPCommandStack.ICommand -> SModelTree -> SModelTree)
  (command : GLSPCommandStack.ICommand) (stack : GLSPCommandStack.t) :
  GLSPCommandStack.callbacks (snd (GLSPCommandStack.execute super_execute command stack))
  = GLSPCommandStack.callbacks stack /\
  GLSPCommandStack.warnings (snd (GLSPCommandStack.execute super_execute command stack))
  = GLSPCommandStack.warnings stack /\
  GLSPCommandStack.currentModel (snd (GLSPCommandStack.execute super_execute command stack))
  = fst (GLSPCommandStack.execute super_execute command stack).
Proof.
  unfold GLSPCommandStack.execute.
  destruct (_ || _); repeat split.
Qed.

Lemma last_cons_default {A} (x : A) (l : list A) (d d' : A) :
  List.last (x :: l) d = List.last (x :: l) d'.
Proof.
  revert x. induction l as [|y l IH]; intros x; [reflexivity|].
  change (List.last (y :: l) d = List.last (y :: l) d'). apply IH.
Qed.

Lemma execute_each_trace
  (super_execute : GLSPCommandStack.ICommand -> SModelTree -> SModelTree)
  (commands : list GLSPCommandStack.ICommand) (stack : GLSPCommandStack.t) :
  let results := fst (execute_each super_execute commands stack) in
  let stack' := snd (execute_each super_execute commands stack) in
  let replaced :=
    map snd (List.filter (fun executed => replaces_model (fst executed))
               (combine commands results)) in
  length results = length commands /\
  GLSPCommandStack.fired stack' = GLSPCommandStack.fired stack ++ replaced /\
  GLSPCommandStack.notified stack'
  = GLSPCommandStack.notified stack
    ++ flat_map (fun root =>
                   map (fun listener => (listener, root))
                     (GLSPCommandStack.callbacks stack))
         replaced /\
  GLSPCommandStack.warnings stack' = GLSPCommandStack.warnings stack /\
  GLSPCommandStack.currentModel stack'
  = List.last results (GLSPCommandStack.currentModel stack).
Proof.
  revert stack. induction commands as [|command rest IH]; intros stack.
  - simpl. rewrite !app_nil_r. repeat split.
  - cbn [execute_each].
    destruct (GLSPCommandStack.execute super_execute command stack)
      as [result stack1] eqn:Hexec.
    specialize (IH stack1).
    destruct (execute_each super_execute rest stack1) as [results stack'] eqn:Hrest.
    cbn [fst snd] in *.
    destruct IH as (Hlen & Hfired & Hnotified & Hwarn & Hmodel).
    pose proof (execute_keeps_callbacks super_execute command stack) as (Hcb & Hw & Hcur).
    rewrite Hexec in Hcb, Hw, Hcur. cbn [fst snd] in Hcb, Hw, Hcur.
    assert (Hstep :
      GLSPCommandStack.fired stack1
      = GLSPCommandStack.fired stack ++ (if replaces_model command then [result] else []) /\
      GLSPCommandStack.notified stack1
      = GLSPCommandStack.notified stack
        ++ (if replaces_model command
            then map (fun listener => (listener, result)) (GLSPCommandStack.callbacks stack)
            else [])).
    { unfold GLSPCommandStack.execute in Hexec. fold (replaces_model command) in Hexec.
      destruct (replaces_model command); injection Hexec as <- <-; simpl;
        rewrite ?app_nil_r; split; reflexivity. }
    destruct Hstep as [Hf1 Hn1].
    split; [simpl; now rewrite Hlen|].
    rewrite Hfired, Hnotified, Hwarn, Hmodel, Hf1, Hn1, Hcb, Hw.
    cbn [combine List.filter fst].
    destruct (replaces_model command); cbn [map snd flat_map];
      rewrite <- ?app_assoc, ?app_nil_r; cbn [app];
      (split; [reflexivity|]); (split; [reflexivity|]); (split; [reflexivity|]).
    + destruct results as [|r results]; [now rewrite Hcur | exact (last_cons_default r results _ _)].
    + destruct results as [|r results]; [now rewrite Hcur | exact (last_cons_default r results _ _)].
Qed.

(** X11.  Over any sequence of commands executed one after the other, the
    model-root-changed events fired are the roots returned for the
    commands that are instances of [SetModelCommand] or
    [UpdateModelCommand], in execution order; every subscribed listener
    receives each of these roots, in that order; no warning is logged, and
    the current model ends as the last root returned. *)
Theorem execute_each_fires_replaced_roots_in_order
  (super_execute : GLSPCommandStack.ICommand -> SModelTree -> SModelTree)
  (commands : list GLSPCommandStack.ICommand) (stack : GLSPCommandStack.t) :
  let results := fst (execute_each super_execute commands stack) in
  let stack' := snd (execute_each super_execute commands stack) in
  let replaced :=
    map snd (List.filter (fun executed => replaces_model (fst executed))
               (combine commands results)) in
  length results = length commands /\
  GLSPCommandStack.fired stack' = GLSPCommandStack.fired stack ++ replaced /\
  GLSPCommandStack.notified stack'
  = GLSPCommandStack.notified stack
    ++ flat_map (fun root =>
                   map (fun listener => (listener, root))
                     (GLSPCommandStack.callbacks stack))
         replaced /\
  GLSPCommandStack.warnings stack' = GLSPCommandStack.warnings stack /\
  GLSPCommandStack.currentModel stack'
  = List.last results (GLSPCommandStack.currentModel stack).
Proof. apply execute_each_trace. Qed.

(** ** Responses of any shape *)

Lemma guarded_object_fields (object : JsValue) (kind : string) :
  Action.hasKind object kind = true -> exists fields, object = JsObject fields.
Proof. destruct object; simpl; try discriminate. eauto. Qed.

(** X12.  Neither translation throws, whatever value arrives as the
    response and whatever the status tests answer:
    [getValidationResultFromResponse] always returns a result and
    [getContextActionsFromResponse] always returns an array. *)
Theorem response_translations_never_throw
  (isError isWarning : JsValue -> bool) (action : JsValue) :
  (exists result,
     getValidationResultFromResponse isError isWarning action = Normal result) /\
  (exists items, getContextActionsFromResponse action = Normal (JsArray items)).
Proof.
  split.
  - unfold getValidationResultFromResponse, SetEditValidationResultAction.is_.
    destruct (Action.hasKind action SetEditValidationResultAction.KIND) eqn:Hkind;
      simpl; [|eauto].
    apply guarded_object_fields in Hkind as [fields ->]. simpl.
    unfold toEditLabelValidationResult.
    destruct (lookup_field fields "status"); simpl; eauto.
  - unfold getContextActionsFromResponse, SetContextActions.is_.
    destruct (Action.hasKind action SetContextActions.KIND) eqn:Hkind;
      simpl; [|eauto].
    apply guarded_object_fields in Hkind as [fields ->]. simpl.
    destruct (lookup_field fields "actions"); simpl; eauto.
Qed.

(** ** Decorating and disposing the label editor *)











(** ** Issue markers *)

Module IssueMarkerFacts.

Import IssueMarker.

Lemma getSeverity_loop_worst (severities : list (option SIssueSeverity))
  (currentSeverity : SIssueSeverity) :
  currentSeverity <> error ->
  getSeverity_loop severities currentSeverity
  = if existsb is_error severities then error
    else if existsb is_warning severities then warning
    else currentSeverity.
Proof.
  revert currentSeverity.
  induction severities as [|s rest IH]; intros current Hcur; [reflexivity|].
  destruct s as [[| |]|]; simpl.
  - reflexivity.
  - destruct current; [congruence | |].
    + rewrite IH by discriminate.
      destruct (existsb is_error rest); [reflexivity|].
      destruct (existsb is_warning rest); reflexivity.
    + rewrite IH by discriminate.
      destruct (existsb is_error rest); [reflexivity|].
      destruct (existsb is_warning rest); reflexivity.
  - now apply IH.
  - now apply IH.
Qed.

Lemma existsb_is_error (l : list SIssue) :
  existsb is_error (map severity l) = true
  <-> exists issue, In issue l /\ severity issue = Some error.
Proof.
  rewrite existsb_exists. split.
  - intros (s & Hin & Hs). apply in_map_iff in Hin as (issue & <- & Hin).
    exists issue. split; [exact Hin|].
    destruct (severity issue) as [[| |]|]; simpl in Hs; congruence.
  - intros (issue & Hin & Hs). exists (Some error). split; [|reflexivity].
    rewrite <- Hs. now apply in_map.
Qed.

Lemma existsb_is_warning (l : list SIssue) :
  existsb is_warning (map severity l) = true
  <-> exists issue, In issue l /\ severity issue = Some warning.
Proof.
  rewrite existsb_exists. split.
  - intros (s & Hin & Hs). apply in_map_iff in Hin as (issue & <- & Hin).
    exists issue. split; [exact Hin|].
    destruct (severity issue) as [[| |]|]; simpl in Hs; congruence.
  - intros (issue & Hin & Hs). exists (Some warning). split; [|reflexivity].
    rewrite <- Hs. now apply in_map.
Qed.

Lemma getSeverity_worst (marker : GIssueMarker) :
  getSeverity marker
  = if existsb is_error (map severity (issues marker)) then error
    else if existsb is_warning (map severity (issues marker)) then warning
    else info.
Proof. unfold getSeverity. now apply getSeverity_loop_worst. Qed.

End IssueMarkerFacts.

(** X16.  [getSeverity] returns the worst severity among the issues of a
    marker: ['error'] exactly when some issue is an error, ['warning']
    exactly when none is an error and some is a warning, and ['info']
    otherwise, also for a marker without issues and for issues whose
    severity was never assigned. *)
Theorem getSeverity_is_worst_severity (marker : IssueMarker.GIssueMarker) :
  let has s := exists issue, In issue (IssueMarker.issues marker) /\
                             IssueMarker.severity issue = Some s in
  (IssueMarker.getSeverity marker = IssueMarker.error <-> has IssueMarker.error) /\
  (IssueMarker.getSeverity marker = IssueMarker.warning <->
   ~ has IssueMarker.error /\ has IssueMarker.warning) /\
  (IssueMarker.getSeverity marker = IssueMarker.info <->
   ~ has IssueMarker.error /\ ~ has IssueMarker.warning).
Proof.
  intros has. subst has. cbv beta.
  rewrite <- IssueMarkerFacts.existsb_is_error, <- IssueMarkerFacts.existsb_is_warning.
  rewrite IssueMarkerFacts.getSeverity_worst.
  destruct (existsb IssueMarker.is_error _);
    destruct (existsb IssueMarker.is_warning _);
    repeat split; try discriminate; try tauto; intuition discriminate.
Qed.

(** X17.  The order of the issues does not matter to [getSeverity], even
    though its loop returns at the first error: markers whose issues are
    the same up to order have the same severity. *)
Theorem getSeverity_ignores_order (marker marker' : IssueMarker.GIssueMarker) :
  Permutation (IssueMarker.issues marker) (IssueMarker.issues marker') ->
  IssueMarker.getSeverity marker = IssueMarker.getSeverity marker'.
Proof.
  intros Hperm. rewrite !IssueMarkerFacts.getSeverity_worst.
  assert (He : existsb IssueMarker.is_error
                 (map IssueMarker.severity (IssueMarker.issues marker))
               = existsb IssueMarker.is_error
                   (map IssueMarker.severity (IssueMarker.issues marker'))).
  { apply eq_true_iff_eq. rewrite !IssueMarkerFacts.existsb_is_error.
    split; intros (issue & Hin & Hs); exists issue; split; try exact Hs.
    - now apply (Permutation_in _ Hperm).
    - now apply (Permutation_in _ (Permutation_sym Hperm)). }
  assert (Hw : existsb IssueMarker.is_warning
                 (map IssueMarker.severity (IssueMarker.issues marker))
               = existsb IssueMarker.is_warning
                   (map IssueMarker.severity (IssueMarker.issues marker'))).
  { apply eq_true_iff_eq. rewrite !IssueMarkerFacts.existsb_is_warning.
    split; intros (issue & Hin & Hs); exists issue; split; try exact Hs.
    - now apply (Permutation_in _ Hperm).
    - now apply (Permutation_in _ (Permutation_sym Hperm)). }
  now rewrite He, Hw.
Qed.

Lemma getSeverity_ignores_order_witness :
  let first := {| IssueMarker.message := "unused"; IssueMarker.severity := Some IssueMarker.warning |} in
  let second := {| IssueMarker.message := "broken"; IssueMarker.severity := Some IssueMarker.error |} in
  let marker issues :=
    {| IssueMarker.features := ∅; IssueMarker.projectionCssClasses := None;
       IssueMarker.projectedBounds := None; IssueMarker.issues := issues;
       IssueMarker.type := "marker" |} in
  IssueMarker.getSeverity (marker [first; second])
  = IssueMarker.getSeverity (marker [second; first]).
Proof.
  intros first second marker.
  apply (getSeverity_ignores_order (marker [first; second]) (marker [second; first])).
  apply perm_swap.
Defined.

Lemma getSIssueMarker_last_child (modelElement : IssueMarker.SParentElement) :
  match IssueMarker.getSIssueMarker modelElement with
  | Some marker =>
      exists before after,
        IssueMarker.children modelElement
        = before ++ IssueMarker.IssueMarkerChild marker :: after /\
        forall other, ~ In (IssueMarker.IssueMarkerChild other) after
  | None =>
      forall other,
        ~ In (IssueMarker.IssueMarkerChild other) (IssueMarker.children modelElement)
  end.
Proof.
  unfold IssueMarker.getSIssueMarker.
  induction (IssueMarker.children modelElement) as [|child l IH] using rev_ind.
  - simpl. intros other [].
  - rewrite fold_left_app. simpl. destruct child as [marker|other_id].
    + exists l, []. split; [reflexivity|]. intros other [].
    + destruct (fold_left _ l None) as [marker|].
      * destruct IH as (before & after & -> & Hnone).
        exists before, (after ++ [IssueMarker.OtherChild other_id]). split.
        -- now rewrite <- app_assoc.
        -- intros other Hin. apply in_app_iff in Hin as [Hin|[Hin|[]]].
           ++ now apply (Hnone other).
           ++ discriminate.
      * intros other Hin. apply in_app_iff in Hin as [Hin|[Hin|[]]].
        -- now apply (IH other).
        -- discriminate.
Qed.

(** X18.  [getSIssueMarker] returns the last child that is a
    [GIssueMarker], not the first, and returns [undefined] exactly when no
    child is one. *)
Theorem getSIssueMarker_finds_last_marker_child
  (modelElement : IssueMarker.SParentElement) :
  match IssueMarker.getSIssueMarker modelElement with
  | Some marker =>
      exists before after,
        IssueMarker.children modelElement
        = before ++ IssueMarker.IssueMarkerChild marker :: after /\
        forall other, ~ In (IssueMarker.IssueMarkerChild other) after
  | None =>
      forall other,
        ~ In (IssueMarker.IssueMarkerChild other) (IssueMarker.children modelElement)
  end.
Proof. apply getSIssueMarker_last_child. Qed.

Lemma getSIssueMarker_after_add (modelElement : IssueMarker.SParentElement)
  (marker : IssueMarker.GIssueMarker) :
  IssueMarker.getSIssueMarker
    {| IssueMarker.children :=
         IssueMarker.children modelElement ++ [IssueMarker.IssueMarkerChild marker];
       IssueMarker.bounds := IssueMarker.bounds modelElement;
       IssueMarker.parentToLocal := IssueMarker.parentToLocal modelElement |}
  = Some marker.
Proof. unfold IssueMarker.getSIssueMarker. simpl. now rewrite fold_left_app. Qed.

(** X19.  The marker [getOrCreateSIssueMarker] returns is the one
    [getSIssueMarker] finds on the parent afterwards, and asking again
    returns that same marker without adding another child. *)
Theorem getOrCreateSIssueMarker_then_found (DEFAULT_FEATURES : list symbol)
  (modelElement : IssueMarker.SParentElement) :
  let issueMarker := fst (IssueMarker.getOrCreateSIssueMarker DEFAULT_FEATURES modelElement) in
  let modelElement' := snd (IssueMarker.getOrCreateSIssueMarker DEFAULT_FEATURES modelElement) in
  IssueMarker.getSIssueMarker modelElement' = Some issueMarker /\
  IssueMarker.getOrCreateSIssueMarker DEFAULT_FEATURES modelElement'
  = (issueMarker, modelElement').
Proof.
  unfold IssueMarker.getOrCreateSIssueMarker.
  destruct (IssueMarker.getSIssueMarker modelElement) as [found|] eqn:Hfound; cbn [fst snd].
  - now rewrite Hfound.
  - now rewrite !getSIssueMarker_after_add.
Qed.

(** X20.  [getOrCreateSIssueMarker] creates a marker only when the parent
    has no [GIssueMarker] child.  With such a child, the parent is left as
    it was and the marker returned is one of its children.  Without, one
    marker is appended after the existing children: it has no issues, the
    type ['marker'], and projected bounds exactly when the parent is
    bounds-aware, namely the parent's bounds taken through its
    [parentToLocal]. *)
Theorem getOrCreateSIssueMarker_creates_only_when_absent
  (DEFAULT_FEATURES : list symbol) (modelElement : IssueMarker.SParentElement) :
  let issueMarker := fst (IssueMarker.getOrCreateSIssueMarker DEFAULT_FEATURES modelElement) in
  let modelElement' := snd (IssueMarker.getOrCreateSIssueMarker DEFAULT_FEATURES modelElement) in
  ((exists marker,
      In (IssueMarker.IssueMarkerChild marker) (IssueMarker.children modelElement)) ->
   modelElement' = modelElement /\
   In (IssueMarker.IssueMarkerChild issueMarker) (IssueMarker.children modelElement)) /\
  ((forall marker,
      ~ In (IssueMarker.IssueMarkerChild marker) (IssueMarker.children modelElement)) ->
   IssueMarker.children modelElement'
   = IssueMarker.children modelElement ++ [IssueMarker.IssueMarkerChild issueMarker] /\
   IssueMarker.issues issueMarker = [] /\
   IssueMarker.type issueMarker = "marker" /\
   IssueMarker.projectedBounds issueMarker
   = option_map (IssueMarker.parentToLocal modelElement) (IssueMarker.bounds modelElement)).
Proof.
  pose proof (getSIssueMarker_last_child modelElement) as Hlast.
  unfold IssueMarker.getOrCreateSIssueMarker.
  destruct (IssueMarker.getSIssueMarker modelElement) as [found|]; cbn [fst snd].
  - destruct Hlast as (before & after & Hchildren & _). split.
    + intros _. split; [reflexivity|]. rewrite Hchildren.
      apply in_app_iff. right. now left.
    + intros Hnone. exfalso. apply (Hnone found). rewrite Hchildren.
      apply in_app_iff. right. now left.
  - split.
    + intros (marker & Hin). exfalso. now apply (Hlast marker).
    + intros _. destruct (IssueMarker.bounds modelElement); repeat split.
Qed.

Lemma getOrCreateSIssueMarker_creates_only_when_absent_witness :
  let marker :=
    {| IssueMarker.features := ∅; IssueMarker.projectionCssClasses := None;
       IssueMarker.projectedBounds := None; IssueMarker.issues := [];
       IssueMarker.type := "marker" |} in
  let with_marker :=
    {| IssueMarker.children := [IssueMarker.OtherChild "label"; IssueMarker.IssueMarkerChild marker];
       IssueMarker.bounds := None; IssueMarker.parentToLocal := fun b => b |} in
  let without_marker :=
    {| IssueMarker.children := [IssueMarker.OtherChild "label"];
       IssueMarker.bounds := Some (JsText "bounds"); IssueMarker.parentToLocal := fun b => b |} in
  snd (IssueMarker.getOrCreateSIssueMarker [] with_marker) = with_marker /\
  length (IssueMarker.children
            (snd (IssueMarker.getOrCreateSIssueMarker [] without_marker))) = 2 /\
  IssueMarker.projectedBounds
    (fst (IssueMarker.getOrCreateSIssueMarker [] without_marker))
  = Some (JsText "bounds").
Proof.
  intros marker with_marker without_marker. split; [|split].
  - apply (getOrCreateSIssueMarker_creates_only_when_absent [] with_marker).
    exists marker. right. now left.
  - destruct (getOrCreateSIssueMarker_creates_only_when_absent [] without_marker)
      as [_ Habsent].
    destruct Habsent as (Hchildren & _).
    + intros other [Hin|[]]. discriminate.
    + rewrite Hchildren. reflexivity.
  - destruct (getOrCreateSIssueMarker_creates_only_when_absent [] without_marker)
      as [_ Habsent].
    destruct Habsent as (_ & _ & _ & Hbounds).
    + intros other [Hin|[]]. discriminate.
    + exact Hbounds.
Defined.

(** X21.  For a marker whose issues were made by [createSIssue] from the
    server's markers, whatever strings the three marker kinds are:
    [getSeverity] is ['error'] exactly when some server marker has the
    error kind, it is ['info'] when no server marker has the error or the
    warning kind (a marker of an unknown kind yields an issue without
    severity), and every issue's message is its marker's description. *)
Theorem getSeverity_of_created_issues (ERROR INFO WARNING : string)
  (markers : list IssueMarker.Marker) (marker : IssueMarker.GIssueMarker) :
  IssueMarker.issues marker = map (IssueMarker.createSIssue ERROR INFO WARNING) markers ->
  (IssueMarker.getSeverity marker = IssueMarker.error <->
   exists m, In m markers /\ IssueMarker.kind m = ERROR) /\
  ((forall m, In m markers ->
      IssueMarker.kind m <> ERROR /\ IssueMarker.kind m <> WARNING) ->
   IssueMarker.getSeverity marker = IssueMarker.info) /\
  map IssueMarker.message (IssueMarker.issues marker)
  = map IssueMarker.description markers.
Proof.
  intros Hissues.
  rewrite IssueMarkerFacts.getSeverity_worst, Hissues. split; [|split].
  - destruct (existsb IssueMarker.is_error _) eqn:He.
    + split; [intros _|reflexivity].
      apply IssueMarkerFacts.existsb_is_error in He as (issue & Hin & Hs).
      apply in_map_iff in Hin as (m & <- & Hin). exists m. split; [exact Hin|].
      unfold IssueMarker.createSIssue in Hs. simpl in Hs.
      destruct (String.eqb_spec (IssueMarker.kind m) ERROR); [assumption|].
      destruct (String.eqb (IssueMarker.kind m) INFO); [discriminate|].
      destruct (String.eqb (IssueMarker.kind m) WARNING); discriminate.
    + split.
      * destruct (existsb IssueMarker.is_warning _); discriminate.
      * intros (m & Hin & Hkind). exfalso.
        assert (Htrue : existsb IssueMarker.is_error
                          (map IssueMarker.severity
                             (map (IssueMarker.createSIssue ERROR INFO WARNING) markers))
                        = true).
        { apply IssueMarkerFacts.existsb_is_error.
          exists (IssueMarker.createSIssue ERROR INFO WARNING m). split.
          - now apply in_map.
          - unfold IssueMarker.createSIssue. simpl.
            now rewrite Hkind, String.eqb_refl. }
        congruence.
  - intros Hkinds.
    destruct (existsb IssueMarker.is_error _) eqn:He.
    + apply IssueMarkerFacts.existsb_is_error in He as (issue & Hin & Hs).
      apply in_map_iff in Hin as (m & <- & Hin).
      destruct (Hkinds m Hin) as [Hne _].
      unfold IssueMarker.createSIssue in Hs. simpl in Hs.
      destruct (String.eqb_spec (IssueMarker.kind m) ERROR); [contradiction|].
      destruct (String.eqb (IssueMarker.kind m) INFO); [discriminate|].
      destruct (String.eqb (IssueMarker.kind m) WARNING); discriminate.
    + destruct (existsb IssueMarker.is_warning _) eqn:Hw; [|reflexivity].
      apply IssueMarkerFacts.existsb_is_warning in Hw as (issue & Hin & Hs).
      apply in_map_iff in Hin as (m & <- & Hin).
      destruct (Hkinds m Hin) as [_ Hne].
      unfold IssueMarker.createSIssue in Hs. simpl in Hs.
      destruct (String.eqb (IssueMarker.kind m) ERROR); [discriminate|].
      destruct (String.eqb (IssueMarker.kind m) INFO); [discriminate|].
      destruct (String.eqb_spec (IssueMarker.kind m) WARNING); [contradiction|].
      discriminate.
  - rewrite map_map. reflexivity.
Qed.

Lemma getSeverity_of_created_issues_witness :
  let markers :=
    [{| IssueMarker.label := "w"; IssueMarker.description := "unused task";
        IssueMarker.elementId := "task1"; IssueMarker.kind := "warning" |};
     {| IssueMarker.label := "e"; IssueMarker.description := "no start node";
        IssueMarker.elementId := "graph"; IssueMarker.kind := "error" |}] in
  let marker :=
    {| IssueMarker.features := ∅; IssueMarker.projectionCssClasses := None;
       IssueMarker.projectedBounds := None;
       IssueMarker.issues := map (IssueMarker.createSIssue "error" "info" "warning") markers;
       IssueMarker.type := "marker" |} in
  IssueMarker.getSeverity marker = IssueMarker.error <->
  exists m, In m markers /\ IssueMarker.kind m = "error".
Proof.
  intros markers marker.
  apply (getSeverity_of_created_issues "error" "info" "warning" markers marker).
  reflexivity.
Defined.

(** X22.  [computeProjectionCssClasses] gives a marker two classes,
    ['sprotty-issue'] and one naming the worst severity of its issues:
    ['sprotty-error'] exactly when some issue is an error,
    ['sprotty-warning'] exactly when none is an error and some is a
    warning, ['sprotty-info'] otherwise; the issues themselves are
    untouched. *)
Theorem computeProjectionCssClasses_names_worst_severity
  (marker : IssueMarker.GIssueMarker) :
  let has s := exists issue, In issue (IssueMarker.issues marker) /\
                             IssueMarker.severity issue = Some s in
  exists class,
    IssueMarker.projectionCssClasses (IssueMarker.computeProjectionCssClasses marker)
    = Some ["sprotty-issue"; class] /\
    (class = "sprotty-error" <-> has IssueMarker.error) /\
    (class = "sprotty-warning" <-> ~ has IssueMarker.error /\ has IssueMarker.warning) /\
    (class = "sprotty-info" <-> ~ has IssueMarker.error /\ ~ has IssueMarker.warning) /\
    IssueMarker.issues (IssueMarker.computeProjectionCssClasses marker)
    = IssueMarker.issues marker.
Proof.
  intros has. subst has. cbv beta.
  eexists. split; [reflexivity|].
  rewrite <- IssueMarkerFacts.existsb_is_error, <- IssueMarkerFacts.existsb_is_warning.
  rewrite IssueMarkerFacts.getSeverity_worst.
  destruct (existsb IssueMarker.is_error _);
    destruct (existsb IssueMarker.is_warning _); simpl;
    repeat split; try discriminate; try tauto; intuition discriminate.
Qed.

(** ** Notifications *)

(** X23.  [ServerStatusAction.create] always writes its own kind and the
    given message; the severity is ['INFO'] unless the options carry one,
    which then replaces it.  The created action passes
    [ServerStatusAction.is] exactly when the options leave the severity out
    or give a string for it. *)
Theorem ServerStatusAction_create_is (message : string)
  (options : ServerStatusAction.Options) :
  let action := ServerStatusAction.create message options in
  get_property action "kind" = Normal (JsText ServerStatusAction.KIND) /\
  get_property action "message" = Normal (JsText message) /\
  get_property action "severity"
  = Normal (match ServerStatusAction.severity options with
            | Some given => given
            | None => JsText "INFO"
            end) /\
  (ServerStatusAction.is_ action = true <->
   ServerStatusAction.severity options = None \/
   exists text, ServerStatusAction.severity options = Some (JsText text)).
Proof.
  destruct options as [[given|] [timeout|]]; simpl;
    (split; [reflexivity|]); (split; [reflexivity|]); (split; [reflexivity|]);
    unfold ServerStatusAction.is_; simpl.
  - destruct given; simpl; split; try discriminate; eauto;
      intros [Hnone|[text Htext]]; discriminate.
  - destruct given; simpl; split; try discriminate; eauto;
      intros [Hnone|[text Htext]]; discriminate.
  - split; auto.
  - split; auto.
Qed.

(** X24.  [ServerMessageAction.create] always writes its own kind and the
    given message; the severity is ['INFO'] unless the options carry one,
    which then replaces it.  The created action passes
    [ServerMessageAction.is] exactly when the options leave the severity
    out or give a string for it. *)
Theorem ServerMessageAction_create_is (message : string)
  (options : ServerMessageAction.Options) :
  let action := ServerMessageAction.create message options in
  get_property action "kind" = Normal (JsText ServerMessageAction.KIND) /\
  get_property action "message" = Normal (JsText message) /\
  get_property action "severity"
  = Normal (match ServerMessageAction.severity options with
            | Some given => given
            | None => JsText "INFO"
            end) /\
  (ServerMessageAction.is_ action = true <->
   ServerMessageAction.severity options = None \/
   exists text, ServerMessageAction.severity options = Some (JsText text)).
Proof.
  destruct options as [[given|] [details|]]; simpl;
    (split; [reflexivity|]); (split; [reflexivity|]); (split; [reflexivity|]);
    unfold ServerMessageAction.is_; simpl.
  - destruct given; simpl; split; try discriminate; eauto;
      intros [Hnone|[text Htext]]; discriminate.
  - destruct given; simpl; split; try discriminate; eauto;
      intros [Hnone|[text Htext]]; discriminate.
  - split; auto.
  - split; auto.
Qed.

(** X25.  Every action made by [StartProgressAction.create],
    [UpdateProgressAction.create] or [EndProgressAction.create] passes the
    guard of its own kind, whatever the optional message and percentage
    are, an [undefined] message included. *)
Theorem progress_actions_pass_their_guard
  (start : StartProgressAction.Options) (progressId : string)
  (update : UpdateProgressAction.Options) (message : JsValue) :
  StartProgressAction.is_ (StartProgressAction.create start) = true /\
  UpdateProgressAction.is_ (UpdateProgressAction.create progressId update) = true /\
  EndProgressAction.is_ (EndProgressAction.create progressId message) = true.
Proof.
  split; [|split].
  - destruct start as [id title [m|] [p|]]; reflexivity.
  - destruct update as [[m|] [p|]]; reflexivity.
  - reflexivity.
Qed.

(** X26.  No value passes more than one of the guards of the five
    notifications. *)
Theorem notification_guards_exclude_each_other (object : JsValue) :
  length (List.filter (fun guard => guard object) notification_guards) <= 1.
Proof.
  unfold notification_guards, ServerStatusAction.is_, ServerMessageAction.is_,
    StartProgressAction.is_, UpdateProgressAction.is_, EndProgressAction.is_.
  destruct object as [| | | | | |fields]; simpl; try lia.
  unfold Action.hasKind, ServerStatusAction.KIND, ServerMessageAction.KIND,
    StartProgressAction.KIND, UpdateProgressAction.KIND, EndProgressAction.KIND.
  destruct (lookup_field fields "kind") as [| | | |kind| |]; simpl; try lia.
  destruct (String.eqb_spec kind "serverStatus") as [->|H1];
    [simpl; repeat (match goal with |- context [if ?b then _ else _] => destruct b end;
                    simpl); lia|].
  destruct (String.eqb_spec kind "serverMessage") as [->|H2];
    [simpl; repeat (match goal with |- context [if ?b then _ else _] => destruct b end;
                    simpl); lia|].
  destruct (String.eqb_spec kind "startProgress") as [->|H3];
    [simpl; repeat (match goal with |- context [if ?b then _ else _] => destruct b end;
                    simpl); lia|].
  destruct (String.eqb_spec kind "updateProgress") as [->|H4];
    [simpl; repeat (match goal with |- context [if ?b then _ else _] => destruct b end;
                    simpl); lia|].
  simpl. destruct (String.eqb kind "endProgress" && _); simpl; lia.
Qed.

(** ** Handling the same hints again *)

Lemma keys_set {V} (m : JsMap.t V) (k k' : string) (v : V) :
  In k (map fst (JsMap.set m k' v)) <-> k = k' \/ In k (map fst m).
Proof.
  induction m as [|[k0 v0] rest IH]; simpl.
  - intuition congruence.
  - destruct (String.eqb_spec k0 k') as [->|Hne]; simpl.
    + intuition congruence.
    + rewrite IH. intuition congruence.
Qed.

Lemma keys_set_present {V} (m : JsMap.t V) (k : string) (v : V) :
  In k (map fst m) -> map fst (JsMap.set m k v) = map fst m.
Proof.
  induction m as [|[k0 v0] rest IH]; simpl; [intros []|].
  destruct (String.eqb_spec k0 k) as [->|Hne]; simpl; [reflexivity|].
  intros [Heq|Hin]; [congruence|]. now rewrite IH.
Qed.

Lemma keys_fold_set_present {V} (key : V -> string) (hints : list V) (m : JsMap.t V) :
  (forall hint, In hint hints -> In (key hint) (map fst m)) ->
  map fst (fold_left (fun m hint => JsMap.set m (key hint) hint) hints m) = map fst m.
Proof.
  revert m. induction hints as [|hint hints IH]; intros m Hall; [reflexivity|].
  simpl. rewrite IH.
  - apply keys_set_present. apply Hall. now left.
  - intros other Hin. apply keys_set. right. apply Hall. now right.
Qed.

Lemma keys_fold_set_cover {V} (key : V -> string) (hints : list V) (m : JsMap.t V) :
  (forall k, In k (map fst m) ->
     In k (map fst (fold_left (fun m hint => JsMap.set m (key hint) hint) hints m))) /\
  (forall hint, In hint hints ->
     In (key hint) (map fst (fold_left (fun m hint => JsMap.set m (key hint) hint) hints m))).
Proof.
  revert m. induction hints as [|hint hints IH]; intros m; simpl.
  - split; [auto | intros h []].
  - destruct (IH (JsMap.set m (key hint) hint)) as [Hold Hnew]. split.
    + intros k Hin. apply Hold, keys_set. now right.
    + intros h [<-|Hin].
      * apply Hold, keys_set. now left.
      * now apply Hnew.
Qed.

Lemma get_absent {V} (m : JsMap.t V) (k : string) :
  ~ In k (map fst m) -> JsMap.get m k = None.
Proof.
  induction m as [|[k0 v0] rest IH]; simpl; [reflexivity|].
  intros Hnotin. destruct (String.eqb_spec k0 k) as [->|Hne].
  - exfalso. apply Hnotin. now left.
  - apply IH. intros Hin. apply Hnotin. now right.
Qed.

Lemma map_ext_by_lookup {V} (m m' : JsMap.t V) :
  List.NoDup (map fst m) ->
  map fst m = map fst m' ->
  (forall k, JsMap.get m k = JsMap.get m' k) ->
  m = m'.
Proof.
  revert m'. induction m as [|[k v] rest IH]; intros [|[k' v'] rest'] Hnd Hkeys Hget;
    try discriminate; [reflexivity|].
  simpl in Hkeys. injection Hkeys as <- Hkeys.
  apply List.NoDup_cons_iff in Hnd as [Hnotin Hnd].
  pose proof (Hget k) as Hk. simpl in Hk. rewrite String.eqb_refl in Hk.
  injection Hk as <-. f_equal.
  apply IH; [exact Hnd | exact Hkeys |].
  intros k0. destruct (String.eqb_spec k k0) as [<-|Hne].
  - rewrite !get_absent; [reflexivity | now rewrite <- Hkeys | exact Hnotin].
  - specialize (Hget k0). simpl in Hget.
    destruct (String.eqb_spec k k0); [contradiction | exact Hget].
Qed.

Lemma fold_set_again {V} (key : V -> string) (hints : list V) (m : JsMap.t V) :
  List.NoDup (map fst m) /\ List.Forall (fun entry => key (snd entry) = fst entry) m ->
  let once := fold_left (fun m hint => JsMap.set m (key hint) hint) hints m in
  fold_left (fun m hint => JsMap.set m (key hint) hint) hints once = once.
Proof.
  intros Hm once.
  destruct (fold_set_keeps_keys_distinct key hints m Hm) as [Hnd Hall]. fold once in Hnd, Hall.
  destruct (keys_fold_set_cover key hints m) as [_ Hcover]. fold once in Hcover.
  symmetry. apply map_ext_by_lookup.
  - exact Hnd.
  - symmetry. now apply keys_fold_set_present.
  - intros k. rewrite (get_fold_set key hints once).
    destruct (find _ (rev hints)) as [hint|] eqn:Hfind; [|reflexivity].
    unfold once. rewrite (get_fold_set key hints m). now rewrite Hfind.
Qed.

(** X27.  Handling the same [SetTypeHintsAction] a second time changes
    nothing: after any history of handled actions, the two registries are,
    entry for entry and in the same order, what they were after the first
    time. *)
Theorem handle_same_action_again (actions : list SetTypeHintsAction)
  (action : SetTypeHintsAction) :
  let provider := fold_left handle actions initialProvider in
  handle (handle provider action) action = handle provider action.
Proof.
  intros provider.
  destruct (handled_registries_well_keyed actions) as [Hshape Hedge].
  fold provider in Hshape, Hedge.
  unfold handle at 1. cbn [shapeHints edgeHints handle].
  rewrite (fold_set_again shape_elementTypeId (action_shapeHints action)
             (shapeHints provider) Hshape).
  rewrite (fold_set_again edge_elementTypeId (action_edgeHints action)
             (edgeHints provider) Hedge).
  reflexivity.
Qed.

(** ** Listeners injected into the command stack *)

(** X28.  On a stack whose emitter has no subscriber yet, [initialize]
    subscribes the injected listeners, and the commands executed afterwards
    make each injected listener receive, in injection order, every root
    returned for a [SetModelCommand] or [UpdateModelCommand], and nothing
    else. *)
Theorem initialize_subscribes_injected_listeners
  (super_execute : GLSPCommandStack.ICommand -> SModelTree -> SModelTree)
  (commands : list GLSPCommandStack.ICommand) (stack : GLSPCommandStack.t) :
  GLSPCommandStack.callbacks stack = [] ->
  let results :=
    fst (execute_each super_execute commands (GLSPCommandStack.initialize stack)) in
  let stack' :=
    snd (execute_each super_execute commands (GLSPCommandStack.initialize stack)) in
  let replaced :=
    map snd (List.filter (fun executed => replaces_model (fst executed))
               (combine commands results)) in
  GLSPCommandStack.notified stack'
  = GLSPCommandStack.notified stack
    ++ flat_map (fun root =>
                   map (fun listener => (listener, root))
                     (GLSPCommandStack.modelRootListeners stack))
         replaced.
Proof.
  intros Hfresh results stack' replaced.
  destruct (execute_each_trace super_execute commands (GLSPCommandStack.initialize stack))
    as (_ & _ & Hnotified & _).
  fold results stack' replaced in Hnotified. rewrite Hnotified.
  simpl. now rewrite Hfresh.
Qed.

Lemma initialize_subscribes_injected_listeners_witness :
  let stack :=
    {| GLSPCommandStack.currentModel := sample_root;
       GLSPCommandStack.modelRootListeners := ["selection"; "outline"];
       GLSPCommandStack.callbacks := [];
       GLSPCommandStack.warnings := [];
       GLSPCommandStack.fired := [];
       GLSPCommandStack.notified := [] |} in
  let update :=
    {| GLSPCommandStack.command_class := GLSPCommandStack.UpdateModelCommand;
       GLSPCommandStack.command_kind := "updateModel" |} in
  let move :=
    {| GLSPCommandStack.command_class := GLSPCommandStack.Command;
       GLSPCommandStack.command_kind := "move" |} in
  GLSPCommandStack.notified
    (snd (execute_each (fun _ model => model) [move; update]
            (GLSPCommandStack.initialize stack)))
  = [("selection", sample_root); ("outline", sample_root)].
Proof.
  intros stack update move.
  apply (initialize_subscribes_injected_listeners (fun _ model => model)
           [move; update] stack).
  reflexivity.
Defined.
